(** * Port-Scanner: a model of [port-scanner.py]

    The scanner probes every port of an inclusive range with one TCP
    connect per port, run on a thread pool, and prints the open ports.
    This development embeds

    - [scan_port], the probe run by a pool worker, as a function of the
      value of the global [stop_scan] it reads on entry and of the answers
      of the operating system to its four socket calls;
    - [main], the coordinator, as a step function on the state shared by
      the main thread, the pool workers and the SIGINT handler, driven by
      a schedule that interleaves them. *)

From Stdlib Require Import ZArith QArith Ascii String.
From stdpp Require Import base tactics option list numbers sorting.

Local Open Scope Z_scope.

(** ** Python values *)

(** The exceptions the program can meet.  [socket.error] is [OSError];
    [socket.gaierror] and [socket.timeout] are subclasses of it. *)
Inductive PyExn : Type :=
| Gaierror                       (* socket.gaierror *)
| OSError                        (* any other OSError, socket.timeout included *)
| TypeError
| ValueError
| UnboundLocalError
| OtherException (name : string) (* any other subclass of Exception *).

(** [except socket.gaierror] *)
Definition is_gaierror (e : PyExn) : bool :=
  match e with Gaierror => true | _ => false end.

(** [except socket.error] *)
Definition is_socket_error (e : PyExn) : bool :=
  match e with Gaierror | OSError => true | _ => false end.

(** A call returns a value or raises. *)
Inductive Res (A : Type) : Type :=
| Ok (a : A)
| Raise (e : PyExn).
Arguments Ok {A} a.
Arguments Raise {A} e.

#[global] Instance res_bind : MBind Res := λ A B k r,
  match r with Ok a => k a | Raise e => Raise e end.

(** The tuple [(port, status, service)] returned by [scan_port]. *)
Definition PortTuple : Type := Z * bool * option string.

Definition tuple_port (t : PortTuple) : Z := t.1.1.
Definition tuple_status (t : PortTuple) : bool := t.1.2.
Definition tuple_service (t : PortTuple) : option string := t.2.

(** *** [sorted] on a list of tuples

    Python compares tuples at the first position where they differ; the
    third component is [None] or a [str], and [None < str] raises
    [TypeError]. *)
Definition tuple_lt (a b : PortTuple) : Res bool :=
  let '(p1, o1, s1) := a in
  let '(p2, o2, s2) := b in
  if negb (p1 =? p2) then Ok (p1 <? p2)
  else if negb (Bool.eqb o1 o2) then Ok (negb o1 && o2)
  else match s1, s2 with
       | None, None => Ok false
       | Some x, Some y => Ok (String.ltb x y)
       | _, _ => Raise TypeError
       end.

(** [list.sort] is stable and only uses [<]; it is modelled by a stable
    insertion sort: an element is put in front of the first element of the
    sorted tail that is not smaller than it. *)
Fixpoint insert (x : PortTuple) (l : list PortTuple) : Res (list PortTuple) :=
  match l with
  | [] => Ok [x]
  | y :: ys =>
      b ← tuple_lt y x;
      if b : bool then (r ← insert x ys; Ok (y :: r)) else Ok (x :: y :: ys)
  end.

Fixpoint sorted (l : list PortTuple) : Res (list PortTuple) :=
  match l with
  | [] => Ok []
  | x :: xs => r ← sorted xs; insert x r
  end.

(** ** The probe: [scan_port] *)

(** What the operating system answers to the calls of one probe. *)
Record ProbeEnv : Type := {
  os_socket : Res unit;          (* socket.socket(AF_INET, SOCK_STREAM) *)
  os_settimeout : Res unit;      (* sock.settimeout(timeout) *)
  os_connect_ex : Res Z;         (* sock.connect_ex((target, port)): errno *)
  os_getservbyport : Res string  (* socket.getservbyport(port) *)
}.

(** The effects of a probe, in the order they happen. *)
Inductive Event : Type :=
| EvSocket                                (* a socket was created *)
| EvSetTimeout (timeout : Q)
| EvConnect (target : string) (port : Z)  (* one TCP connect attempt *)
| EvGetServ (port : Z)
| EvPrint (msg : string)
| EvClose                                 (* sock.close() *)
| EvProgress                              (* progress_bar.update(1) *).

Definition Trace : Type := list Event.

Section Probe.
Variables (target : string) (port : Z) (timeout : Q) (os : ProbeEnv).

(** The body of the [try] block. *)
Definition scan_port_try : Trace * Res PortTuple :=
  match os_socket os with
  | Raise e => ([], Raise e)
  | Ok _ =>
      match os_settimeout os with
      | Raise e => ([EvSocket; EvSetTimeout timeout], Raise e)
      | Ok _ =>
          match os_connect_ex os with
          | Raise e =>
              ([EvSocket; EvSetTimeout timeout; EvConnect target port],
               Raise e)
          | Ok result =>
              if result =? 0 then
                let service :=
                  match os_getservbyport os with
                  | Ok name => name
                  | Raise _ => "unknown"%string
                  end in
                ([EvSocket; EvSetTimeout timeout; EvConnect target port;
                  EvGetServ port],
                 Ok (port, true, Some service))
              else
                ([EvSocket; EvSetTimeout timeout; EvConnect target port],
                 Ok (port, false, None))
          end
      end
  end.

(** The two [except] clauses. *)
Definition scan_port_except (r : Trace * Res PortTuple)
  : Trace * Res PortTuple :=
  match r with
  | (tr, Raise e) =>
      if is_gaierror e then
        (tr ++ [EvPrint "[!] Hostname could not be resolved"],
         Ok (port, false, None))
      else if is_socket_error e then
        (tr ++ [EvPrint "[!] Could not connect to server"],
         Ok (port, false, None))
      else (tr, Raise e)
  | (tr, Ok t) => (tr, Ok t)
  end.

(** The [finally] clause.  [sock] is bound only when [socket.socket]
    returned; otherwise [sock.close()] raises [UnboundLocalError], which
    replaces the pending return or exception. *)
Definition scan_port_finally (progress_bar : bool)
    (r : Trace * Res PortTuple) : Trace * Res PortTuple :=
  match os_socket os with
  | Ok _ =>
      (r.1 ++ EvClose :: (if progress_bar then [EvProgress] else []), r.2)
  | Raise _ => (r.1, Raise UnboundLocalError)
  end.

(** [scan_port(target, port, timeout)], given the values of the globals
    [stop_scan] and [progress_bar] (its truth value). *)
Definition scan_port (stop_scan progress_bar : bool)
  : Trace * Res PortTuple :=
  if stop_scan then ([], Ok (port, false, None))
  else scan_port_finally progress_bar (scan_port_except scan_port_try).
End Probe.

(** ** The coordinator: [main]

    [main] installs [signal_handler] for SIGINT before anything else, so
    Ctrl+C never raises [KeyboardInterrupt]: the handler only sets the
    flag.  The banner, the colours, the progress bar and the duration are
    left out; of the progress bar only the update made by a probe is
    kept, as an event.  The bar is created with [total = len(ports)]
    before the pool, so it is true whenever a probe runs. *)

(** The parsed command line: [args.target], the two bounds of
    [args.ports], [args.threads] and [args.timeout]. *)
Record Args : Type := {
  target : string;
  start_port : Z;
  end_port : Z;
  threads : Z;
  timeout : Q
}.

(** [range(start_port, end_port + 1)] *)
Definition ports (a : Args) : list Z :=
  seqZ (start_port a) (end_port a + 1 - start_port a).

(** [sys.maxsize], the largest length a container can have: its value
    on a 64-bit build of CPython (it is [2^31 - 1] on a 32-bit build).
    The proofs use only that it is not negative. *)
Definition sys_maxsize : Z := 2 ^ 63 - 1.

(** [len(ports)].  A range with more than [sys.maxsize] elements has no
    length that fits, and [len] raises [OverflowError]. *)
Definition total_ports (a : Args) : Res nat :=
  if sys_maxsize <? end_port a + 1 - start_port a
  then Raise (OtherException "OverflowError")
  else Ok (length (ports a)).

(** A future of the pool: the port its call of [scan_port] was submitted
    with, and how far the call is.  A worker that has taken the call has
    read [stop_scan] on entry. *)
Inductive FutureState : Type :=
| Pending
| Running (stop_seen : bool)
| Finished (r : Trace * Res PortTuple).

Record Future : Type := {
  fut_port : Z;
  fut_state : FutureState
}.

(** [executor.submit(scan_port, args.target, port, args.timeout)] *)
Definition submit (port : Z) : Future :=
  {| fut_port := port; fut_state := Pending |}.

(** Where the main thread is. *)
Inductive MainPC : Type :=
| LoopHead                            (* for future in futures: if stop_scan *)
| Await                               (* future.result() and its handling *)
| Join                                (* leaving the with block *)
| Finally (pending : option PyExn)    (* printing the results *)
| ExitCheck (pending : option PyExn)  (* the last if stop_scan *)
| Exited.

Inductive ExitStatus : Type :=
| ExitOk
| ExitInterrupted                     (* sys.exit(1) *)
| ExitTraceback (e : PyExn).

(** The state shared by the main thread, the workers and the handler. *)
Record State : Type := {
  stop_scan : bool;                   (* the global flag *)
  futures : list Future;
  pc : MainPC;
  it : nat;                           (* position of the for loop in futures *)
  results : list PortTuple;
  errors : list PyExn;                (* "Error processing result" lines *)
  log : Trace;                        (* effects of the probes, in order *)
  report : option (list PortTuple);   (* the rows printed under Scan Results *)
  exit_status : option ExitStatus
}.

Definition set_pc (pc' : MainPC) (s : State) : State :=
  {| stop_scan := stop_scan s; futures := futures s; pc := pc'; it := it s;
     results := results s; errors := errors s; log := log s;
     report := report s; exit_status := exit_status s |}.

Definition set_future (i : nat) (f : Future) (tr : Trace) (s : State) : State :=
  {| stop_scan := stop_scan s; futures := <[i := f]> (futures s); pc := pc s;
     it := it s; results := results s; errors := errors s;
     log := log s ++ tr; report := report s; exit_status := exit_status s |}.

(** [signal_handler]: sets the flag (and closes the progress bar). *)
Definition signal_handler (s : State) : State :=
  {| stop_scan := true; futures := futures s; pc := pc s; it := it s;
     results := results s; errors := errors s; log := log s;
     report := report s; exit_status := exit_status s |}.

Definition is_running (f : Future) : bool :=
  match fut_state f with Running _ => true | _ => false end.

Definition is_finished (f : Future) : bool :=
  match fut_state f with Finished _ => true | _ => false end.

(** The body of the for loop once [future.result()] has an outcome: an
    open tuple is appended to [results]; an exception is reported. *)
Definition handle_result (r : Res PortTuple) (s : State) : State :=
  {| stop_scan := stop_scan s; futures := futures s; pc := LoopHead;
     it := S (it s);
     results := match r with
                | Ok result =>
                    if tuple_status result then results s ++ [result]
                    else results s
                | Raise _ => results s
                end;
     errors := match r with
               | Ok _ => errors s
               | Raise e => errors s ++ [e]
               end;
     log := log s; report := report s; exit_status := exit_status s |}.

(** The rows printed in the [finally] clause. *)
Definition print_results (l : list PortTuple) : Res (list PortTuple) :=
  match l with
  | [] => Ok []                       (* "No open ports found" *)
  | _ => sorted l
  end.

Definition finish (st : ExitStatus) (s : State) : State :=
  {| stop_scan := stop_scan s; futures := futures s; pc := Exited; it := it s;
     results := results s; errors := errors s; log := log s;
     report := report s; exit_status := Some st |}.

Definition set_report (rows : list PortTuple) (pending : option PyExn)
    (s : State) : State :=
  {| stop_scan := stop_scan s; futures := futures s; pc := ExitCheck pending;
     it := it s; results := results s; errors := errors s; log := log s;
     report := Some rows; exit_status := exit_status s |}.

(** The steps of the schedule: a SIGINT is delivered, a worker takes the
    call of future [i] and reads the flag, the call of future [i]
    returns, or the main thread moves on.  The order in which the calls
    are taken and return is free; at most [args.threads] calls are
    running at a time. *)
Inductive Step : Type :=
| SSignal
| SStart (i : nat)
| SFinish (i : nat)
| SMain.

#[global] Instance Step_eq_dec : EqDecision Step.
Proof. solve_decision. Defined.

Section Coordinator.
Variable a : Args.
(** What the operating system answers to the probe of each port. *)
Variable world : Z → ProbeEnv.

(** The state when the for loop is reached, which takes that
    [len(ports)] has returned (see [main_start]).  The pool refuses
    [max_workers <= 0] with [ValueError]; otherwise one call per port
    has been submitted. *)
Definition main_init : State :=
  {| stop_scan := false;
     futures := if threads a <=? 0 then [] else submit <$> ports a;
     pc := if threads a <=? 0 then Finally (Some ValueError) else LoopHead;
     it := 0%nat; results := []; errors := []; log := [];
     report := None; exit_status := None |}.

(** One step of the main thread; [None] when it is blocked or gone.
    [future.result()] blocks until the call has returned.  Leaving the
    [with] block joins the pool: [shutdown(wait=False)] cancels nothing,
    so every submitted call is run before the workers stop. *)
Definition main_step (s : State) : option State :=
  match pc s with
  | LoopHead =>
      match futures s !! it s with
      | None => Some (set_pc Join s)
      | Some _ =>
          if stop_scan s then Some (set_pc Join s)  (* shutdown; break *)
          else Some (set_pc Await s)
      end
  | Await =>
      match futures s !! it s with
      | Some {| fut_state := Finished r |} => Some (handle_result r.2 s)
      | _ => None
      end
  | Join =>
      if forallb is_finished (futures s) then Some (set_pc (Finally None) s)
      else None
  | Finally pending =>
      match print_results (results s) with
      | Ok rows => Some (set_report rows pending s)
      | Raise e => Some (finish (ExitTraceback e) s)
      end
  | ExitCheck pending =>
      if stop_scan s then Some (finish ExitInterrupted s)
      else match pending with
           | None => Some (finish ExitOk s)
           | Some e => Some (finish (ExitTraceback e) s)
           end
  | Exited => None
  end.

Definition step (ev : Step) (s : State) : option State :=
  match ev with
  | SSignal =>
      match pc s with
      | Exited => None
      | _ => Some (signal_handler s)
      end
  | SStart i =>
      match futures s !! i with
      | Some {| fut_port := port; fut_state := Pending |} =>
          if Z.of_nat (length (filter (λ f, is_running f = true) (futures s)))
             <? threads a
          then Some (set_future i {| fut_port := port;
                                     fut_state := Running (stop_scan s) |}
                       [] s)
          else None
      | _ => None
      end
  | SFinish i =>
      match futures s !! i with
      | Some {| fut_port := port; fut_state := Running stop_seen |} =>
          let r := scan_port (target a) port (timeout a) (world port)
                     stop_seen true in
          Some (set_future i {| fut_port := port; fut_state := Finished r |}
                  r.1 s)
      | _ => None
      end
  | SMain => main_step s
  end.

(** A schedule is run step by step; it is refused when a step is not
    enabled. *)
Fixpoint run (sched : list Step) (s : State) : option State :=
  match sched with
  | [] => Some s
  | ev :: sched' => s' ← step ev s; run sched' s'
  end.

(** [main] up to the [try] block: the handler is installed, the
    arguments are taken and [total_ports = len(ports)] is computed.  When
    [len] raises, [main] ends there with the traceback of the exception:
    no banner, no pool, no probe and no results are printed. *)
Definition main_start : Res State := _ ← total_ports a; Ok main_init.

(** The state of the scan after a schedule; [None] when [main] has ended
    before the [try] block, or when the schedule is refused. *)
Definition main (sched : list Step) : option State :=
  match main_start with
  | Ok s => run sched s
  | Raise _ => None
  end.
End Coordinator.

(** ** Vocabulary of the properties *)

(** The ports a trace attempts a connect to, in order. *)
Definition connects (tr : Trace) : list Z :=
  omap (λ ev, match ev with EvConnect _ port => Some port | _ => None end) tr.

(** The connects that leave the port closed: [connect_ex] returns a
    non-zero errno (ECONNREFUSED for a refusal, EHOSTUNREACH for an
    unreachable host, EAGAIN when the timeout expires), or the call
    raises an [OSError] that is not a resolution failure
    ([socket.timeout] is one). *)
Definition ECONNREFUSED : Z := 111.
Definition EHOSTUNREACH : Z := 113.
Definition EAGAIN : Z := 11.

Definition connect_failed (c : Res Z) : Prop :=
  (∃ errno, c = Ok errno ∧ errno ≠ 0) ∨ c = Raise OSError.

(** What the for loop gets out of the outcome of a call: the tuple it
    returned, the open tuple appended to [results], the exception that is
    reported. *)
Definition returned_tuple (r : Trace * Res PortTuple) : option PortTuple :=
  match r.2 with Ok t => Some t | Raise _ => None end.

Definition open_tuple (r : Trace * Res PortTuple) : option PortTuple :=
  match r.2 with
  | Ok t => if tuple_status t then Some t else None
  | Raise _ => None
  end.

Definition raised_exn (r : Trace * Res PortTuple) : option PyExn :=
  match r.2 with Ok _ => None | Raise e => Some e end.

Definition outcome (f : Future) : option (Trace * Res PortTuple) :=
  match fut_state f with Finished r => Some r | _ => None end.

Definition returned (f : Future) : option PortTuple :=
  outcome f ≫= returned_tuple.
Definition opened (f : Future) : option PortTuple :=
  outcome f ≫= open_tuple.
Definition raised (f : Future) : option PyExn :=
  outcome f ≫= raised_exn.

(** The call of [scan_port] for a port when no SIGINT has been
    delivered. *)
Definition probe (a : Args) (world : Z → ProbeEnv) (port : Z)
  : Trace * Res PortTuple :=
  scan_port (target a) port (timeout a) (world port) false true.

(** The connects attempted by the calls that have returned. *)
Definition done_connects (fs : list Future) : list Z :=
  fs ≫= λ f, match fut_state f with
             | Finished r => connects r.1
             | _ => []
             end.

(** Strictly ascending port numbers. *)
Definition ascending (l : list PortTuple) : Prop :=
  StronglySorted Z.lt (tuple_port <$> l).

(** The exit status of a run that reaches the last line of [main]. *)
Definition final_status (a : Args) (s : State) : ExitStatus :=
  if stop_scan s then ExitInterrupted
  else if threads a <=? 0 then ExitTraceback ValueError
  else ExitOk.

Definition in_with_block (pc : MainPC) : bool :=
  match pc with LoopHead | Await | Join => true | _ => false end.

Definition in_loop (pc : MainPC) : bool :=
  match pc with LoopHead | Await => true | _ => false end.

Definition after_join (pc : MainPC) : bool :=
  match pc with Finally _ | ExitCheck _ | Exited => true | _ => false end.

Definition reported (pc : MainPC) : bool :=
  match pc with ExitCheck _ | Exited => true | _ => false end.

Definition pending_of (pc : MainPC) : option (option PyExn) :=
  match pc with Finally p | ExitCheck p => Some p | _ => None end.

(** The invariant of the coordinator. *)
Record Inv (a : Args) (world : Z → ProbeEnv) (s : State) : Prop := {
  inv_ports :
    fut_port <$> futures s = if threads a <=? 0 then [] else ports a;
  inv_outcome : ∀ i f r,
    futures s !! i = Some f → fut_state f = Finished r →
    ∃ stop_seen, r = scan_port (target a) (fut_port f) (timeout a)
                       (world (fut_port f)) stop_seen true ∧
                 (stop_seen = true → stop_scan s = true);
  inv_running : ∀ i f,
    futures s !! i = Some f → fut_state f = Running true →
    stop_scan s = true;
  inv_it : (it s ≤ length (futures s))%nat;
  inv_taken : ∀ i, (i < it s)%nat →
    ∃ f, futures s !! i = Some f ∧ is_finished f = true;
  inv_await : pc s = Await → (it s < length (futures s))%nat;
  inv_results : results s = omap opened (take (it s) (futures s));
  inv_errors : errors s = omap raised (take (it s) (futures s));
  inv_log : connects (log s) ≡ₚ done_connects (futures s);
  inv_pool : in_with_block (pc s) = true → (threads a <=? 0) = false;
  inv_left : in_loop (pc s) = false →
    stop_scan s = true ∨ it s = length (futures s);
  inv_joined : after_join (pc s) = true →
    Forall (λ f, is_finished f = true) (futures s);
  inv_pending : ∀ p, pending_of (pc s) = Some p →
    p = if threads a <=? 0 then Some ValueError else None;
  inv_report :
    report s = if reported (pc s) then Some (results s) else None;
  inv_exit :
    exit_status s =
      match pc s with Exited => Some (final_status a s) | _ => None end
}.

(** ** Schedules and worlds used in the examples *)

(** A listener with a conventional service name, a port that refuses, a
    connect that times out, a name that does not resolve, and a host name
    with a non-ASCII character that the idna codec cannot encode (an
    empty label): [connect_ex] then raises [TypeError], which is not an
    [OSError], before any lookup. *)
Definition os_open (name : string) : ProbeEnv :=
  {| os_socket := Ok (); os_settimeout := Ok (); os_connect_ex := Ok 0;
     os_getservbyport := Ok name |}.

Definition os_refused : ProbeEnv :=
  {| os_socket := Ok (); os_settimeout := Ok ();
     os_connect_ex := Ok ECONNREFUSED; os_getservbyport := Raise OSError |}.

Definition os_timed_out : ProbeEnv :=
  {| os_socket := Ok (); os_settimeout := Ok ();
     os_connect_ex := Ok EAGAIN; os_getservbyport := Raise OSError |}.

Definition os_unresolved : ProbeEnv :=
  {| os_socket := Ok (); os_settimeout := Ok ();
     os_connect_ex := Raise Gaierror; os_getservbyport := Raise OSError |}.

Definition os_bad_name : ProbeEnv :=
  {| os_socket := Ok (); os_settimeout := Ok ();
     os_connect_ex := Raise TypeError;
     os_getservbyport := Raise OSError |}.

(** A host that listens on ports 22 and 80 only. *)
Definition world_22_80 (port : Z) : ProbeEnv :=
  if port =? 22 then os_open "ssh"
  else if port =? 80 then os_open "http"
  else os_refused.

(** A host on which every port is open, with no service name known. *)
Definition world_all_open (port : Z) : ProbeEnv :=
  {| os_socket := Ok (); os_settimeout := Ok (); os_connect_ex := Ok 0;
     os_getservbyport := Raise OSError |}.

Definition args_of (host : string) (first last workers : Z) : Args :=
  {| target := host; start_port := first; end_port := last;
     threads := workers; timeout := 1%Q |}.

(** The workers run the calls one after the other, in submission order. *)
Definition probes_in_turn (n : nat) : list Step :=
  seq 0 n ≫= λ i, [SStart i; SFinish i].

(** The main thread goes [n] times around the loop. *)
Definition collect_all (n : nat) : list Step := replicate (2 * n) SMain.

(** The main thread leaves the loop, joins the pool, prints the results
    and reaches the end of [main]. *)
Definition wind_up : list Step := [SMain; SMain; SMain; SMain].

Definition sequential (n : nat) : list Step :=
  probes_in_turn n ++ collect_all n ++ wind_up.

(** Three workers take three calls, which return in the reverse order. *)
Definition last_first : list Step :=
  [SStart 0; SStart 1; SStart 2; SFinish 2; SFinish 1; SFinish 0]
  ++ collect_all 3 ++ wind_up.

(** The future of a call that ran in full. *)
Definition ran (a : Args) (world : Z → ProbeEnv) (port : Z) : Future :=
  {| fut_port := port; fut_state := Finished (probe a world port) |}.

(** The first [k] calls have run, the others are pending, and the main
    thread has not moved. *)
Definition probing (a : Args) (world : Z → ProbeEnv) (k : nat) (s : State)
  : Prop :=
  futures s = (ran a world <$> take k (ports a))
              ++ (submit <$> drop k (ports a)) ∧
  stop_scan s = false ∧ pc s = LoopHead ∧ it s = 0%nat.

(** All calls have run and the loop has handled the first [j]. *)
Definition collecting (a : Args) (world : Z → ProbeEnv) (j : nat) (s : State)
  : Prop :=
  futures s = ran a world <$> ports a ∧
  stop_scan s = false ∧ pc s = LoopHead ∧ it s = j.

(** ** The port range argument

    [start_port, end_port = map(int, args.ports.split('-'))] runs before
    the banner and before the [try] block: an exception raised there
    ends the program with a traceback, without any scan or report. *)

(** [s.split('-')]: the pieces between the hyphens, one more than there
    are hyphens. *)
Fixpoint split_hyphen (s : string) : list string :=
  match s with
  | EmptyString => [EmptyString]
  | String c s' =>
      if Ascii.eqb c "-"%char then EmptyString :: split_hyphen s'
      else match split_hyphen s' with
           | piece :: pieces => String c piece :: pieces
           | [] => [String c EmptyString]
           end
  end.

(** Unpacking the lazy [map(int, pieces)] into two names: [int] is
    applied to a piece when the unpacking asks for it; after the second
    value a third one is asked for, and must not come. *)
Definition unpack_two (int : string → Res Z) (pieces : list string)
  : Res (Z * Z) :=
  match pieces with
  | [] => Raise ValueError
  | p1 :: rest =>
      start ← int p1;
      match rest with
      | [] => Raise ValueError
      | p2 :: rest' =>
          stop ← int p2;
          match rest' with
          | [] => Ok (start, stop)
          | p3 :: _ => _ ← int p3; Raise ValueError
          end
      end
  end.

Definition parse_port_range (int : string → Res Z) (arg : string)
  : Res (Z * Z) :=
  unpack_two int (split_hyphen arg).

(** The string has a hyphen. *)
Fixpoint has_hyphen (s : string) : bool :=
  match s with
  | EmptyString => false
  | String c s' => Ascii.eqb c "-"%char || has_hyphen s'
  end.

(** A reading of unsigned decimal numerals, which agrees with [int] on
    the non-empty strings of ASCII digits and rejects every other string
    ([int] accepts more: blanks around, a sign, underscores). *)
Definition digit_value (c : ascii) : option Z :=
  let n := Z.of_N (Ascii.N_of_ascii c) in
  if (48 <=? n) && (n <=? 57) then Some (n - 48) else None.

Fixpoint digits_value (acc : Z) (s : string) : option Z :=
  match s with
  | EmptyString => Some acc
  | String c s' =>
      match digit_value c with
      | Some d => digits_value (10 * acc + d) s'
      | None => None
      end
  end.

Definition decimal (s : string) : Res Z :=
  match s with
  | EmptyString => Raise ValueError
  | _ => match digits_value 0 s with
         | Some n => Ok n
         | None => Raise ValueError
         end
  end.

(** ** Vocabulary of the further properties *)

Definition is_socket (ev : Event) : bool :=
  match ev with EvSocket => true | _ => false end.
Definition is_close (ev : Event) : bool :=
  match ev with EvClose => true | _ => false end.
Definition is_progress (ev : Event) : bool :=
  match ev with EvProgress => true | _ => false end.
Definition is_print (ev : Event) : bool :=
  match ev with EvPrint _ => true | _ => false end.

(** How many events of a kind a trace has. *)
Definition count (p : Event → bool) (tr : list Event) : nat :=
  length (filter (λ ev, p ev = true) tr).

(** The effects of the calls that have returned. *)
Definition done_traces (fs : list Future) : Trace :=
  fs ≫= λ f, match outcome f with Some r => r.1 | None => [] end.

(** The rows of a scan that no SIGINT disturbs. *)
Definition full_report (a : Args) (world : Z → ProbeEnv) : list PortTuple :=
  omap (λ port, open_tuple (probe a world port)) (ports a).

(** A call that passed the test of [stop_scan] and has not returned. *)
Definition is_connecting (f : Future) : bool :=
  match fut_state f with Running false => true | _ => false end.

Definition running (fs : list Future) : nat :=
  length (filter (λ f, is_running f = true) fs).

Definition connecting (fs : list Future) : nat :=
  length (filter (λ f, is_connecting f = true) fs).

Definition unfinished (fs : list Future) : nat :=
  length (filter (λ f, is_finished f = false) fs).

Definition is_pending (f : Future) : bool :=
  match fut_state f with Pending => true | _ => false end.

Definition pending (fs : list Future) : nat :=
  length (filter (λ f, is_pending f = true) fs).

(** The steps of a schedule that are not the delivery of a SIGINT: the
    steps of the workers and of the main thread. *)
Definition work (sched : list Step) : nat :=
  length (filter (λ ev, ev ≠ SSignal) sched).

(** An upper bound of the steps that the main thread still has to take:
    two for every future that the loop has not handled, and those that
    follow the loop. *)
Definition main_fuel (s : State) : nat :=
  match pc s with
  | LoopHead => 2 * (length (futures s) - it s) + 4
  | Await => 2 * (length (futures s) - it s) + 3
  | Join => 3
  | Finally _ => 2
  | ExitCheck _ => 1
  | Exited => 0
  end.

(** An upper bound of the steps that workers and main thread still have
    to take: two for a pending call, one for a running call, and the
    steps of the main thread. *)
Definition fuel (s : State) : nat :=
  unfinished (futures s) + pending (futures s) + main_fuel s.

(** * Properties *)

(** ** The probe *)

Section ProbeFacts.
Variables (target : string) (port : Z) (timeout : Q).

Lemma scan_port_result_port os stop pb t :
  (scan_port target port timeout os stop pb).2 = Ok t → tuple_port t = port.
Proof.
  unfold scan_port, scan_port_finally, scan_port_except, scan_port_try.
  destruct stop; simpl; [by intros [= <-]|].
  destruct (os_socket os) as [[]|e0]; simpl; [|done].
  destruct (os_settimeout os) as [[]|e1]; simpl.
  - destruct (os_connect_ex os) as [errno|e2]; simpl.
    + destruct (errno =? 0); simpl; by intros [= <-].
    + destruct (is_gaierror e2), (is_socket_error e2); simpl;
        try done; by intros [= <-].
  - destruct (is_gaierror e1), (is_socket_error e1); simpl;
      try done; by intros [= <-].
Qed.

Lemma scan_port_open_service os stop pb t :
  (scan_port target port timeout os stop pb).2 = Ok t →
  tuple_status t = true → is_Some (tuple_service t).
Proof.
  unfold scan_port, scan_port_finally, scan_port_except, scan_port_try.
  destruct stop; simpl; [by intros [= <-]|].
  destruct (os_socket os) as [[]|e0]; simpl; [|done].
  destruct (os_settimeout os) as [[]|e1]; simpl.
  - destruct (os_connect_ex os) as [errno|e2]; simpl.
    + destruct (errno =? 0); simpl; intros [= <-]; [by eexists|done].
    + destruct (is_gaierror e2), (is_socket_error e2); simpl;
        try done; by intros [= <-].
  - destruct (is_gaierror e1), (is_socket_error e1); simpl;
      try done; by intros [= <-].
Qed.

(** A probe attempts at most one connect, and only to its own port. *)
Lemma scan_port_connects os stop pb :
  connects (scan_port target port timeout os stop pb).1 = [] ∨
  connects (scan_port target port timeout os stop pb).1 = [port].
Proof.
  unfold scan_port, scan_port_finally, scan_port_except, scan_port_try.
  destruct stop; simpl; [by left|].
  destruct (os_socket os) as [[]|e0]; simpl.
  - destruct (os_settimeout os) as [[]|e1]; simpl.
    + destruct (os_connect_ex os) as [errno|e2]; simpl.
      * destruct (errno =? 0); simpl; destruct pb; by right.
      * destruct (is_gaierror e2), (is_socket_error e2), pb; by right.
    + destruct (is_gaierror e1), (is_socket_error e1), pb; by left.
  - destruct (is_gaierror e0), (is_socket_error e0); by left.
Qed.
End ProbeFacts.

(** C5.  A probe that finds [stop_scan] set on entry returns
    [(port, False, None)] at once: it raises nothing and has no effect at
    all, so it creates no socket and attempts no connect. *)
Theorem scan_port_cancelled target port timeout os pb :
  scan_port target port timeout os true pb = ([], Ok (port, false, None)).
Proof. reflexivity. Qed.

(** C6.  When the connect of a probe succeeds ([connect_ex] returns 0),
    the probe returns [(port, True, service)] and raises nothing;
    [service] is the name [getservbyport] gives for the port, and the
    literal ["unknown"] whenever that lookup raises, whatever it raises. *)
Theorem scan_port_open target port timeout os pb :
  os_socket os = Ok () → os_settimeout os = Ok () → os_connect_ex os = Ok 0 →
  ∃ service,
    (scan_port target port timeout os false pb).2
      = Ok (port, true, Some service) ∧
    (∀ name, os_getservbyport os = Ok name → service = name) ∧
    (∀ e, os_getservbyport os = Raise e → service = "unknown"%string).
Proof.
  intros Hs Ht Hc.
  unfold scan_port, scan_port_finally, scan_port_except, scan_port_try.
  rewrite Hs, Ht, Hc. simpl.
  destruct (os_getservbyport os) as [name|e]; eexists; split_and!;
    try reflexivity; congruence.
Qed.

Lemma scan_port_open_witness :
  let os := {| os_socket := Ok (); os_settimeout := Ok ();
               os_connect_ex := Ok 0; os_getservbyport := Ok "ssh"%string |} in
  ∃ service,
    (scan_port "localhost" 22 1%Q os false true).2
      = Ok (22, true, Some service) ∧
    (∀ name, os_getservbyport os = Ok name → service = name) ∧
    (∀ e, os_getservbyport os = Raise e → service = "unknown"%string).
Proof.
  intros os.
  exact (scan_port_open "localhost" 22 1%Q os true eq_refl eq_refl eq_refl).
Defined.

(** C7.  When the connect of a probe is refused, unreachable or timed
    out, the probe returns [(port, False, None)] and raises nothing; the
    tuple is the same for every such failure, so a timeout is not told
    apart from a refusal. *)
Theorem scan_port_closed target port timeout os pb :
  os_socket os = Ok () → os_settimeout os = Ok () →
  connect_failed (os_connect_ex os) →
  (scan_port target port timeout os false pb).2 = Ok (port, false, None) ∧
  ∀ os', os_socket os' = Ok () → os_settimeout os' = Ok () →
         connect_failed (os_connect_ex os') →
         (scan_port target port timeout os' false pb).2
           = (scan_port target port timeout os false pb).2.
Proof.
  assert (Hone : ∀ o, os_socket o = Ok () → os_settimeout o = Ok () →
                      connect_failed (os_connect_ex o) →
                      (scan_port target port timeout o false pb).2
                        = Ok (port, false, None)).
  { intros o Hs Ht Hc.
    unfold scan_port, scan_port_finally, scan_port_except, scan_port_try.
    rewrite Hs, Ht. destruct Hc as [(errno & -> & Hne)| ->]; simpl.
    - by destruct (Z.eqb_spec errno 0).
    - reflexivity. }
  intros Hs Ht Hc. split; [by apply Hone|].
  intros os' Hs' Ht' Hc'. by rewrite !Hone.
Qed.

Lemma scan_port_closed_witness :
  (scan_port "localhost" 81 1%Q os_refused false true).2
    = Ok (81, false, None) ∧
  (scan_port "localhost" 81 1%Q os_timed_out false true).2
    = (scan_port "localhost" 81 1%Q os_refused false true).2.
Proof.
  assert (Hf : ∀ errno, errno ≠ 0 → connect_failed (Ok errno))
    by (intros errno Hne; left; eauto).
  destruct (scan_port_closed "localhost" 81 1%Q os_refused true) as [H1 H2];
    [reflexivity | reflexivity | by apply Hf |].
  split; [exact H1|].
  apply (H2 os_timed_out); [reflexivity | reflexivity | by apply Hf].
Defined.

Ltac not_in_list H :=
  repeat (apply elem_of_cons in H as [?|H]; [done|]); by apply elem_of_nil in H.

Ltac uses_upto_four :=
  first [ eexists [_; _; _; _]; split; [reflexivity|]
        | eexists [_; _; _]; split; [reflexivity|]
        | eexists [_; _]; split; [reflexivity|]
        | eexists [_]; split; [reflexivity|] ].

(** C9.  A probe that created a socket closes it before it returns, on
    every way out: whatever [settimeout], [connect_ex] and
    [getservbyport] answer or raise, and whether the probe returns a
    tuple or raises, [sock.close()] comes after every use of the socket,
    exactly once, followed by nothing but the progress update. *)
Theorem scan_port_closes_socket target port timeout os stop pb :
  EvSocket ∈ (scan_port target port timeout os stop pb).1 →
  ∃ uses,
    (scan_port target port timeout os stop pb).1
      = EvSocket :: uses ++ EvClose :: (if pb then [EvProgress] else []) ∧
    (EvClose ∉ uses) ∧ (EvSocket ∉ uses).
Proof.
  unfold scan_port, scan_port_finally, scan_port_except, scan_port_try.
  destruct stop; simpl; [intros H; by apply elem_of_nil in H|].
  destruct (os_socket os) as [[]|e0]; simpl.
  - intros _.
    destruct (os_settimeout os) as [[]|e1]; simpl;
      [destruct (os_connect_ex os) as [errno|e2]; simpl;
       [destruct (errno =? 0)
       |destruct (is_gaierror e2), (is_socket_error e2)]
      |destruct (is_gaierror e1), (is_socket_error e1)];
      simpl; uses_upto_four; split; intros H; not_in_list H.
  - destruct (is_gaierror e0), (is_socket_error e0); simpl;
      intros H; not_in_list H.
Qed.

Lemma scan_port_closes_socket_witness :
  let os := os_bad_name in
  EvSocket ∈ (scan_port "münchen..de" 80 1%Q os false true).1 ∧
  ∃ uses,
    (scan_port "münchen..de" 80 1%Q os false true).1
      = EvSocket :: uses ++ EvClose :: [EvProgress] ∧
    (EvClose ∉ uses) ∧ (EvSocket ∉ uses).
Proof.
  intros os.
  assert (Hin : EvSocket ∈ (scan_port "münchen..de" 80 1%Q os false true).1)
    by (vm_compute; apply list_elem_of_here).
  split; [exact Hin|].
  exact (scan_port_closes_socket "münchen..de" 80 1%Q os false true Hin).
Defined.

(** ** [sorted] on ascending lists *)

Lemma tuple_lt_port x y :
  tuple_port x < tuple_port y → tuple_lt y x = Ok false.
Proof.
  destruct x as [[p1 o1] s1], y as [[p2 o2] s2]; unfold tuple_port; simpl.
  intros Hlt. destruct (Z.eqb_spec p2 p1) as [|_]; [lia|]. simpl.
  f_equal. apply Z.ltb_ge. lia.
Qed.

Lemma insert_below x l :
  Forall (λ y, tuple_port x < tuple_port y) l → insert x l = Ok (x :: l).
Proof.
  destruct l as [|y ys]; [done|]. intros [Hy _]%Forall_cons. simpl.
  by rewrite (tuple_lt_port x y Hy).
Qed.

(** On a list whose ports are strictly ascending no comparison raises
    and [sorted] returns the list itself. *)
Lemma sorted_ascending l : ascending l → sorted l = Ok l.
Proof.
  unfold ascending. induction l as [|x l IH]; [done|].
  rewrite fmap_cons. intros [Hx Hl]%StronglySorted_cons. simpl.
  rewrite (IH Hl). simpl. apply insert_below.
  rewrite Forall_fmap in Hx. exact Hx.
Qed.

Lemma print_results_ascending l : ascending l → print_results l = Ok l.
Proof. destruct l; [done|]. apply sorted_ascending. Qed.

Lemma StronglySorted_sublist {A} (R : relation A) (l k : list A) :
  l `sublist_of` k → StronglySorted R k → StronglySorted R l.
Proof.
  induction 1 as [|x l k Hsub IH|x l k Hsub IH].
  - done.
  - intros [Hx Hk]%StronglySorted_cons. apply StronglySorted_cons. split; [|auto].
    rewrite Forall_forall in Hx |- *. eauto using elem_of_sublist.
  - intros [_ Hk]%StronglySorted_cons. auto.
Qed.

Lemma StronglySorted_seqZ m n : StronglySorted Z.lt (seqZ m n).
Proof.
  remember (Z.to_nat n) as k eqn:Hk. revert m n Hk.
  induction k as [|k IH]; intros m n Hk.
  - rewrite seqZ_nil by lia. constructor.
  - rewrite seqZ_cons by lia. apply StronglySorted_cons. split.
    + apply Forall_seqZ. lia.
    + apply IH. lia.
Qed.

(** ** The invariant of the coordinator *)

Lemma opened_ports_sublist (fs : list Future) :
  (∀ f t, f ∈ fs → opened f = Some t → tuple_port t = fut_port f) →
  tuple_port <$> omap opened fs `sublist_of` fut_port <$> fs.
Proof.
  induction fs as [|f fs IH]; intros Hport; [constructor|].
  simpl. destruct (opened f) as [t|] eqn:Ht; simpl.
  - rewrite (Hport f t) by (done || apply list_elem_of_here).
    apply sublist_skip, IH. intros f' t' Hin. apply Hport. by apply list_elem_of_further.
  - apply sublist_cons, IH. intros f' t' Hin. apply Hport. by apply list_elem_of_further.
Qed.

Lemma done_connects_insert (fs : list Future) i f f' :
  fs !! i = Some f → is_finished f = false →
  done_connects (<[i := f']> fs)
  ≡ₚ done_connects fs
     ++ match fut_state f' with Finished r => connects r.1 | _ => [] end.
Proof.
  intros Hi Hf. unfold done_connects.
  rewrite insert_take_drop by (by eapply lookup_lt_Some).
  rewrite <- (take_drop_middle fs i f Hi) at 3.
  rewrite !bind_app, !bind_cons.
  assert (match fut_state f with Finished r => connects r.1 | _ => [] end = [])
    as -> by (unfold is_finished in Hf; by destruct (fut_state f)).
  simpl. rewrite <- !app_assoc. f_equiv. apply Permutation_app_comm.
Qed.

Section Invariant.
Variables (a : Args) (world : Z → ProbeEnv).

Lemma inv_init : Inv a world (main_init a).
Proof.
  unfold main_init.
  destruct (threads a <=? 0) eqn:Hth; split; simpl; rewrite ?Hth;
    try done; try lia; try (intros; lia).
  - by intros p [= <-].
  - rewrite <- list_fmap_compose. apply list_fmap_id.
  - intros i f r (p & -> & _)%list_lookup_fmap_Some. done.
  - intros i f (p & -> & _)%list_lookup_fmap_Some. done.
  - unfold done_connects. induction (ports a); [done|]. by rewrite fmap_cons, bind_cons.
Qed.

Lemma inv_signal s : Inv a world s → pc s ≠ Exited → Inv a world (signal_handler s).
Proof.
  intros [] Hpc. split; simpl; try done.
  - intros i f r Hi Hf. destruct (inv_outcome0 i f r Hi Hf) as (b & -> & _).
    by exists b.
  - by left.
  - destruct (pc s); done.
Qed.

Lemma inv_set_future s i f f' tr :
  Inv a world s → futures s !! i = Some f → is_finished f = false →
  fut_port f' = fut_port f →
  match fut_state f' with
  | Finished r =>
      tr = r.1 ∧
      ∃ stop_seen, r = scan_port (target a) (fut_port f) (timeout a)
                         (world (fut_port f)) stop_seen true ∧
                   (stop_seen = true → stop_scan s = true)
  | Running stop_seen => tr = [] ∧ (stop_seen = true → stop_scan s = true)
  | Pending => tr = []
  end →
  Inv a world (set_future i f' tr s).
Proof.
  intros [] Hi Hf Hport Hnew.
  assert (Hge : (it s ≤ i)%nat).
  { destruct (decide (i < it s)%nat) as [Hlt|]; [|lia].
    destruct (inv_taken0 i Hlt) as (g & Hg & Hfin). congruence. }
  assert (Hnj : after_join (pc s) = false).
  { destruct (after_join (pc s)) eqn:Hj; [|done].
    specialize (inv_joined0 eq_refl).
    rewrite Forall_lookup in inv_joined0.
    specialize (inv_joined0 i f Hi). simpl in *. congruence. }
  split; simpl; rewrite ?length_insert, ?take_insert_ge by done; try done.
  - rewrite list_fmap_insert, Hport. rewrite list_insert_id; [done|].
    by rewrite list_lookup_fmap, Hi.
  - intros j g r Hj Hg.
    destruct (decide (i = j)) as [<-|Hne].
    + rewrite list_lookup_insert_eq in Hj by (by eapply lookup_lt_Some).
      injection Hj as <-. rewrite Hg in Hnew. destruct Hnew as [_ Hnew].
      by rewrite Hport.
    + rewrite list_lookup_insert_ne in Hj by done. eauto.
  - intros j g Hj Hg.
    destruct (decide (i = j)) as [<-|Hne].
    + rewrite list_lookup_insert_eq in Hj by (by eapply lookup_lt_Some).
      injection Hj as <-. rewrite Hg in Hnew. by apply Hnew.
    + rewrite list_lookup_insert_ne in Hj by done. eauto.
  - intros j Hj. destruct (inv_taken0 j Hj) as (g & Hg & Hfin).
    exists g. split; [|done]. rewrite list_lookup_insert_ne by lia. done.
  - rewrite (done_connects_insert _ i f f') by done.
    unfold connects at 1. rewrite omap_app. fold (connects (log s)) (connects tr).
    rewrite inv_log0. f_equiv.
    destruct (fut_state f'); try (by subst tr); by destruct Hnew as [-> _].
  - by rewrite Hnj.
Qed.

Lemma opened_port s f t :
  Inv a world s → f ∈ futures s → opened f = Some t →
  tuple_port t = fut_port f.
Proof.
  intros Hinv [i Hi]%list_elem_of_lookup Ht.
  unfold opened, outcome, open_tuple in Ht.
  destruct (fut_state f) as [| |[tr [t'|e]]] eqn:Hst; try done.
  simpl in Ht. destruct (tuple_status t'); [|done]. injection Ht as ->.
  destruct (inv_outcome _ _ _ Hinv i f _ Hi Hst) as (b & Hb & _).
  eapply scan_port_result_port. by rewrite <- Hb.
Qed.

(** The list [results] is in ascending port order at every moment. *)
Lemma results_ascending s : Inv a world s → ascending (results s).
Proof.
  intros Hinv. unfold ascending. rewrite (inv_results _ _ _ Hinv).
  eapply StronglySorted_sublist.
  - apply opened_ports_sublist. intros f t Hin. apply (opened_port s); [done|].
    eapply elem_of_sublist; [done|]. apply sublist_take.
  - rewrite fmap_take, (inv_ports _ _ _ Hinv).
    eapply StronglySorted_sublist; [apply sublist_take|].
    destruct (threads a <=? 0); [constructor|]. apply StronglySorted_seqZ.
Qed.

Lemma inv_main_step s s' :
  Inv a world s → main_step s = Some s' → Inv a world s'.
Proof.
  intros Hinv Hstep. pose proof (results_ascending s Hinv) as Hasc.
  destruct Hinv. unfold main_step in Hstep.
  destruct (pc s) as [| | |pending|pending|] eqn:Hpc; simpl in *.
  - (* LoopHead *)
    destruct (futures s !! it s) as [f|] eqn:Hf.
    + destruct (stop_scan s) eqn:Hstop; injection Hstep as <-;
        split; simpl; rewrite ?Hpc, ?Hstop; simpl; try done.
      * by left.
      * intros _. by eapply lookup_lt_Some.
    + injection Hstep as <-. apply lookup_ge_None in Hf.
      split; simpl; rewrite ?Hpc; simpl; try done.
      intros _. right. lia.
  - (* Await *)
    destruct (futures s !! it s) as [[port [| |r]]|] eqn:Hf; try done.
    injection Hstep as <-.
    split; simpl; rewrite ?Hpc; simpl; try done.
    + by eapply lookup_lt_Some.
    + intros i Hi. destruct (decide (i = it s)) as [->|].
      * eexists. split; [done|]. done.
      * apply inv_taken0. lia.
    + rewrite (take_S_r _ _ _ Hf), omap_app, <- inv_results0. simpl.
      unfold opened, outcome, open_tuple. simpl.
      destruct r as [tr [t|e]]; simpl.
      * destruct (tuple_status t); [done|]. by rewrite app_nil_r.
      * by rewrite app_nil_r.
    + rewrite (take_S_r _ _ _ Hf), omap_app, <- inv_errors0. simpl.
      unfold raised, outcome, raised_exn. simpl.
      destruct r as [tr [t|e]]; simpl; [|done].
      by rewrite app_nil_r.
  - (* Join *)
    destruct (forallb is_finished (futures s)) eqn:Hall; [|done].
    injection Hstep as <-.
    split; simpl; rewrite ?Hpc; simpl; try done.
    + intros _. apply Is_true_true_2, forallb_True in Hall.
      eapply Forall_impl; [exact Hall|]. intros f. apply Is_true_true_1.
    + intros p [= <-]. by rewrite inv_pool0.
  - (* Finally *)
    rewrite (print_results_ascending _ Hasc) in Hstep. injection Hstep as <-.
    split; simpl; rewrite ?Hpc; simpl; try done.
  - (* ExitCheck *)
    assert (s' = finish (final_status a s) s) as ->.
    { unfold final_status. pose proof (inv_pending0 pending eq_refl) as Hp.
      rewrite Hp in Hstep.
      destruct (stop_scan s), (threads a <=? 0); by injection Hstep as <-. }
    split; simpl; rewrite ?Hpc; simpl; try done.
  - done.
Qed.

Lemma inv_step ev s s' :
  Inv a world s → step a world ev s = Some s' → Inv a world s'.
Proof.
  intros Hinv Hstep. destruct ev as [|i|i|]; simpl in Hstep.
  - destruct (pc s) eqn:Hpc; try done; injection Hstep as <-;
      apply inv_signal; congruence.
  - destruct (futures s !! i) as [[port [| |r]]|] eqn:Hf; try done.
    destruct (_ <? _); [|done]. injection Hstep as <-.
    eapply inv_set_future; [done..|]. simpl. split; [done|].
    by intros ->.
  - destruct (futures s !! i) as [[port [|stop_seen|r]]|] eqn:Hf; try done.
    injection Hstep as <-.
    eapply inv_set_future; [done..|]. simpl. split; [done|].
    exists stop_seen. split; [done|]. intros ->.
    by eapply (inv_running _ _ _ Hinv).
  - by eapply inv_main_step.
Qed.

Lemma inv_run sched s s' :
  Inv a world s → run a world sched s = Some s' → Inv a world s'.
Proof.
  revert s. induction sched as [|ev sched IH]; intros s Hinv; simpl.
  - by intros [= <-].
  - destruct (step a world ev s) as [s1|] eqn:Hstep; [|done]. simpl.
    apply IH. by eapply inv_step.
Qed.

Lemma sys_maxsize_nonneg : 0 ≤ sys_maxsize.
Proof. by vm_compute. Qed.

Lemma total_ports_length n : total_ports a = Ok n → n = length (ports a).
Proof. unfold total_ports. destruct (_ <? _); [done|]. by intros [= <-]. Qed.

Lemma total_ports_spec :
  total_ports a = (if sys_maxsize <? end_port a + 1 - start_port a
                   then Raise (OtherException "OverflowError")
                   else Ok (Z.to_nat (end_port a + 1 - start_port a))).
Proof. unfold total_ports, ports. by rewrite length_seqZ. Qed.

(** A scan has a state only when [len(ports)] has returned; its states
    are then those of the schedule run from [main_init]. *)
Lemma main_run sched s :
  main a world sched = Some s → run a world sched (main_init a) = Some s.
Proof. unfold main, main_start. by destruct (total_ports a). Qed.

Lemma main_total sched s :
  main a world sched = Some s → total_ports a = Ok (length (ports a)).
Proof.
  unfold main, main_start. destruct (total_ports a) as [n|] eqn:Hn; [|done].
  intros _. by rewrite (total_ports_length n Hn).
Qed.

Lemma main_fits n sched :
  total_ports a = Ok n →
  main a world sched = run a world sched (main_init a).
Proof. unfold main, main_start. by intros ->. Qed.

Lemma inv_main sched s : main a world sched = Some s → Inv a world s.
Proof. intros Hrun%main_run. by eapply inv_run, Hrun; apply inv_init. Qed.
End Invariant.

(** ** Every scan can run to its end *)

Section Completion.
Variables (a : Args) (world : Z → ProbeEnv).

Lemma run_app sched1 sched2 s :
  run a world (sched1 ++ sched2) s
  = run a world sched1 s ≫= run a world sched2.
Proof.
  revert s. induction sched1 as [|ev sched1 IH]; intros s; [done|].
  simpl. destruct (step a world ev s); [apply IH|done].
Qed.

Lemma no_running k :
  filter (λ f, is_running f = true)
    ((ran a world <$> take k (ports a)) ++ (submit <$> drop k (ports a))) = [].
Proof.
  rewrite filter_app.
  assert (H1 : ∀ l, filter (λ f, is_running f = true) (ran a world <$> l) = []).
  { induction l as [|p l IH]; [done|]. rewrite fmap_cons, filter_cons_False; done. }
  assert (H2 : ∀ l, filter (λ f, is_running f = true) (submit <$> l) = []).
  { induction l as [|p l IH]; [done|]. rewrite fmap_cons, filter_cons_False; done. }
  by rewrite H1, H2.
Qed.

Lemma probing_step k s :
  0 < threads a → probing a world k s → (k < length (ports a))%nat →
  ∃ s', run a world [SStart k; SFinish k] s = Some s' ∧ probing a world (S k) s'.
Proof.
  intros Hth (Hfs & Hstop & Hpc & Hit) Hk.
  destruct (lookup_lt_is_Some_2 (ports a) k Hk) as [p Hp].
  assert (Hlen : length (ran a world <$> take k (ports a)) = k).
  { rewrite length_fmap, length_take. lia. }
  assert (Hdrop : drop k (ports a) = p :: drop (S k) (ports a)).
  { by rewrite (drop_S _ p k). }
  assert (Hlook : futures s !! k = Some (submit p)).
  { rewrite Hfs, lookup_app_r, Hlen, Nat.sub_diag, Hdrop by lia. done. }
  assert (Hstart : step a world (SStart k) s
            = Some (set_future k {| fut_port := p;
                                    fut_state := Running false |} [] s)).
  { unfold step. rewrite Hlook. unfold submit.
    rewrite Hfs at 1. rewrite no_running, Hstop. simpl.
    change (Z.of_nat 0) with 0.
    by destruct (Z.ltb_spec 0 (threads a)); [|lia]. }
  assert (Hfinish :
    step a world (SFinish k)
      (set_future k {| fut_port := p; fut_state := Running false |} [] s)
    = Some (set_future k (ran a world p) (probe a world p).1
              (set_future k {| fut_port := p;
                               fut_state := Running false |} [] s))).
  { unfold step. simpl.
    by rewrite list_lookup_insert_eq by (by eapply lookup_lt_Some). }
  exists (set_future k (ran a world p) (probe a world p).1
            (set_future k {| fut_port := p;
                             fut_state := Running false |} [] s)).
  split.
  { change (run a world [SStart k; SFinish k] s)
      with (step a world (SStart k) s ≫= λ s1,
            step a world (SFinish k) s1 ≫= λ s2, Some s2).
    rewrite Hstart. cbn [mbind option_bind]. by rewrite Hfinish. }
  unfold probing. simpl. split_and!; try done.
  rewrite list_insert_insert_eq, Hfs, Hdrop, fmap_cons.
  rewrite insert_app_r_alt, Hlen, Nat.sub_diag by lia.
  rewrite (take_S_r _ _ p Hp), fmap_app. simpl. by rewrite <- app_assoc.
Qed.

Lemma probing_run m k s :
  0 < threads a → probing a world k s → (k + m ≤ length (ports a))%nat →
  ∃ s', run a world (seq k m ≫= λ i, [SStart i; SFinish i]) s = Some s' ∧
        probing a world (k + m) s'.
Proof.
  intros Hth. revert k s. induction m as [|m IH]; intros k s Hs Hk.
  - exists s. rewrite Nat.add_0_r. by split.
  - destruct (probing_step k s) as (s1 & Hrun1 & Hs1); [done|done|lia|].
    destruct (IH (S k) s1) as (s2 & Hrun2 & Hs2); [done|lia|].
    exists s2. split; [|by rewrite Nat.add_succ_r].
    change (seq k (S m)) with (k :: seq (S k) m).
    rewrite bind_cons, run_app, Hrun1. exact Hrun2.
Qed.

Lemma collecting_step j s :
  collecting a world j s → (j < length (ports a))%nat →
  ∃ s', run a world [SMain; SMain] s = Some s' ∧ collecting a world (S j) s'.
Proof.
  intros (Hfs & Hstop & Hpc & Hit) Hj.
  destruct (lookup_lt_is_Some_2 (ports a) j Hj) as [p Hp].
  assert (Hlook : futures s !! it s = Some (ran a world p)).
  { by rewrite Hfs, Hit, list_lookup_fmap, Hp. }
  assert (Hhead : main_step s = Some (set_pc Await s)).
  { unfold main_step. by rewrite Hpc, Hlook, Hstop. }
  assert (Hawait : main_step (set_pc Await s)
                   = Some (handle_result (probe a world p).2 (set_pc Await s))).
  { unfold main_step. simpl. by rewrite Hlook. }
  exists (handle_result (probe a world p).2 (set_pc Await s)). split.
  { change (run a world [SMain; SMain] s)
      with (main_step s ≫= λ s1, main_step s1 ≫= λ s2, Some s2).
    rewrite Hhead. cbn [mbind option_bind]. by rewrite Hawait. }
  unfold collecting. simpl. by rewrite Hit.
Qed.

Lemma collecting_run m j s :
  collecting a world j s → (j + m ≤ length (ports a))%nat →
  ∃ s', run a world (replicate (2 * m) SMain) s = Some s' ∧
        collecting a world (j + m) s'.
Proof.
  revert j s. induction m as [|m IH]; intros j s Hs Hj.
  - exists s. rewrite Nat.add_0_r. by split.
  - destruct (collecting_step j s) as (s1 & Hrun1 & Hs1); [done|lia|].
    destruct (IH (S j) s1) as (s2 & Hrun2 & Hs2); [done|lia|].
    exists s2. split; [|by rewrite Nat.add_succ_r].
    replace (2 * S m)%nat with (S (S (2 * m))) by lia.
    change (replicate (S (S (2 * m))) SMain)
      with ([SMain; SMain] ++ replicate (2 * m) SMain).
    rewrite run_app, Hrun1. exact Hrun2.
Qed.

Lemma wind_up_run s :
  Inv a world s → collecting a world (length (ports a)) s →
  ∃ s', run a world wind_up s = Some s' ∧ pc s' = Exited.
Proof.
  intros Hinv (Hfs & Hstop & Hpc & Hit).
  pose proof (results_ascending _ _ _ Hinv) as Hasc.
  assert (Hnone : futures s !! it s = None).
  { apply lookup_ge_None. by rewrite Hfs, Hit, length_fmap. }
  assert (Hall : forallb is_finished (futures s) = true).
  { rewrite Hfs. clear. induction (ports a) as [|p l IH]; [done|].
    rewrite fmap_cons. simpl. exact IH. }
  assert (H1 : main_step s = Some (set_pc Join s)).
  { unfold main_step. by rewrite Hpc, Hnone. }
  assert (H2 : main_step (set_pc Join s)
               = Some (set_pc (Finally None) (set_pc Join s))).
  { unfold main_step. simpl. by rewrite Hall. }
  assert (H3 : main_step (set_pc (Finally None) (set_pc Join s))
               = Some (set_report (results s) None
                         (set_pc (Finally None) (set_pc Join s)))).
  { unfold main_step. simpl. by rewrite (print_results_ascending _ Hasc). }
  assert (H4 : main_step (set_report (results s) None
                            (set_pc (Finally None) (set_pc Join s)))
               = Some (finish ExitOk
                         (set_report (results s) None
                            (set_pc (Finally None) (set_pc Join s))))).
  { unfold main_step. simpl. by rewrite Hstop. }
  exists (finish ExitOk
            (set_report (results s) None
               (set_pc (Finally None) (set_pc Join s)))).
  split; [|reflexivity].
  change (run a world wind_up s)
    with (main_step s ≫= λ s1, main_step s1 ≫= λ s2,
          main_step s2 ≫= λ s3, main_step s3 ≫= λ s4, Some s4).
  rewrite H1. cbn [mbind option_bind]. rewrite H2. cbn [mbind option_bind].
  rewrite H3. cbn [mbind option_bind]. by rewrite H4.
Qed.

Lemma sequential_no_signal n : SSignal ∉ sequential n.
Proof.
  unfold sequential, probes_in_turn, collect_all, wind_up.
  rewrite !not_elem_of_app. split_and!.
  - intros (i & Hin & _)%list_elem_of_bind. not_in_list Hin.
  - intros [? _]%elem_of_replicate. done.
  - intros Hin. not_in_list Hin.
Qed.

(** With a usable pool and a range whose length [len] accepts, the
    schedule that runs the probes one after the other is accepted, has no
    SIGINT, and takes [main] to its end. *)
Lemma scan_completes n :
  0 < threads a → total_ports a = Ok n →
  ∃ s, main a world (sequential n) = Some s ∧ pc s = Exited.
Proof.
  intros Hth Hn. rewrite (main_fits a world n _ Hn).
  apply total_ports_length in Hn as ->.
  unfold sequential, probes_in_turn, collect_all.
  destruct (probing_run (length (ports a)) 0 (main_init a))
    as (s1 & Hrun1 & Hfs1 & Hstop1 & Hpc1 & Hit1); [done| |lia|].
  { unfold probing, main_init. simpl.
    destruct (Z.leb_spec (threads a) 0); [lia|]. by rewrite drop_0. }
  simpl in Hfs1. rewrite firstn_all, drop_all, app_nil_r in Hfs1.
  destruct (collecting_run (length (ports a)) 0 s1)
    as (s2 & Hrun2 & Hs2); [done|lia|].
  simpl in Hs2.
  assert (Hinv : Inv a world s2).
  { eapply inv_run; [|exact Hrun2]. eapply inv_run; [|exact Hrun1].
    apply inv_init. }
  destruct (wind_up_run s2 Hinv Hs2) as (s3 & Hrun3 & Hpc3).
  exists s3. split; [|done].
  rewrite run_app, Hrun1. cbn [mbind option_bind].
  rewrite run_app, Hrun2. exact Hrun3.
Qed.
End Completion.

(** ** The flag [stop_scan] and the schedule *)

Section Flag.
Variables (a : Args) (world : Z → ProbeEnv).

Lemma step_stop_scan ev s s' :
  step a world ev s = Some s' →
  stop_scan s' = match ev with SSignal => true | _ => stop_scan s end.
Proof.
  destruct ev as [|i|i|]; simpl.
  - destruct (pc s); try done; by intros [= <-].
  - destruct (futures s !! i) as [[port [| |r]]|]; try done.
    destruct (_ <? _); [|done]. by intros [= <-].
  - destruct (futures s !! i) as [[port [| |r]]|]; try done.
    by intros [= <-].
  - unfold main_step.
    destruct (pc s) as [| | |pending|pending|]; try done.
    + destruct (futures s !! it s); [destruct (stop_scan s) eqn:Hs|];
        intros [= <-]; simpl; congruence.
    + destruct (futures s !! it s) as [[port [| |r]]|]; try done.
      by intros [= <-].
    + destruct (forallb _ _); [|done]. by intros [= <-].
    + destruct (print_results _); by intros [= <-].
    + destruct (stop_scan s) eqn:Hs; [|destruct pending];
        intros [= <-]; simpl; congruence.
Qed.

(** Without a SIGINT the flag keeps its value. *)
Lemma run_no_signal sched s s' :
  SSignal ∉ sched → run a world sched s = Some s' →
  stop_scan s' = stop_scan s.
Proof.
  revert s. induction sched as [|ev sched IH]; intros s Hno; simpl.
  - by intros [= <-].
  - destruct (step a world ev s) as [s1|] eqn:Hstep; [|done]. simpl.
    intros Hrun. apply not_elem_of_cons in Hno as [Hev Hno].
    rewrite (IH s1 Hno Hrun), (step_stop_scan _ _ _ Hstep).
    by destruct ev.
Qed.

(** Once set, the flag stays set. *)
Lemma run_stop_scan sched s s' :
  stop_scan s = true → run a world sched s = Some s' → stop_scan s' = true.
Proof.
  revert s. induction sched as [|ev sched IH]; intros s Hs; simpl.
  - by intros [= <-].
  - destruct (step a world ev s) as [s1|] eqn:Hstep; [|done]. simpl.
    apply IH. rewrite (step_stop_scan _ _ _ Hstep). by destruct ev.
Qed.

(** In a scan that no SIGINT disturbs, every call that has returned ran
    the probe in full. *)
Lemma outcomes_uninterrupted s :
  Inv a world s → stop_scan s = false → after_join (pc s) = true →
  Forall (λ f, outcome f = Some (probe a world (fut_port f))) (futures s).
Proof.
  intros Hinv Hstop Hjoin. apply Forall_lookup. intros i f Hi.
  pose proof (inv_joined _ _ _ Hinv Hjoin) as Hall.
  rewrite Forall_lookup in Hall. specialize (Hall i f Hi).
  unfold is_finished in Hall. unfold outcome.
  destruct (fut_state f) as [| |r] eqn:Hst; try done.
  destruct (inv_outcome _ _ _ Hinv i f r Hi Hst) as (b & -> & Hb).
  destruct b; [|done]. rewrite Hb in Hstop; done.
Qed.
End Flag.

Lemma omap_outcomes {B} (g : Trace * Res PortTuple → option B)
    (h : Z → Trace * Res PortTuple) (fs : list Future) :
  Forall (λ f, outcome f = Some (h (fut_port f))) fs →
  omap (λ f, outcome f ≫= g) fs = omap (λ port, g (h port)) (fut_port <$> fs).
Proof.
  induction 1 as [|f fs Hf _ IH]; [done|].
  rewrite fmap_cons. cbn [omap list_omap]. rewrite Hf. simpl.
  fold (omap (λ f, outcome f ≫= g) fs).
  fold (omap (λ port, g (h port)) (fut_port <$> fs)). by rewrite IH.
Qed.

(** ** The report *)

(** C3.  In every scan, interrupted or not and whatever the order in
    which the probes return, the rows of the final report are in strictly
    ascending port order; a scan that reaches the end of [main] has
    printed its report; and when no SIGINT is delivered the rows are the
    open tuples of the probes in port order, the same for every
    schedule. *)
Theorem report_sorted a world sched s :
  main a world sched = Some s →
  (∀ rows, report s = Some rows → StronglySorted Z.lt (tuple_port <$> rows)) ∧
  (pc s = Exited → is_Some (report s)) ∧
  (0 < threads a → SSignal ∉ sched → pc s = Exited →
   report s = Some (omap (λ port, open_tuple (probe a world port)) (ports a))).
Proof.
  intros Hrun. pose proof (inv_main _ _ _ _ Hrun) as Hinv.
  pose proof (inv_report _ _ _ Hinv) as Hrep. split_and!.
  - intros rows Hrows. rewrite Hrows in Hrep.
    destruct (reported (pc s)); [|done]. injection Hrep as ->.
    by apply (results_ascending a world).
  - intros Hpc. rewrite Hpc in Hrep. by rewrite Hrep.
  - intros Hth Hno Hpc. rewrite Hpc in Hrep. simpl in Hrep. rewrite Hrep.
    assert (Hstop : stop_scan s = false) by apply (run_no_signal _ _ _ _ _ Hno (main_run _ _ _ _ Hrun)).
    assert (Hjoin : after_join (pc s) = true) by by rewrite Hpc.
    destruct (inv_left _ _ _ Hinv) as [?|Hit]; [by rewrite Hpc|congruence|].
    rewrite (inv_results _ _ _ Hinv), Hit, firstn_all.
    unfold opened.
    rewrite (omap_outcomes open_tuple (probe a world)
               (futures s) (outcomes_uninterrupted _ _ _ Hinv Hstop Hjoin)).
    rewrite (inv_ports _ _ _ Hinv).
    by destruct (Z.leb_spec (threads a) 0); [lia|].
Qed.

Lemma report_sorted_witness :
  ∃ s, main (args_of "localhost" 20 22 3) world_22_80 last_first = Some s ∧
       report s = Some [(22, true, Some "ssh"%string)] ∧
       StronglySorted Z.lt (tuple_port <$> [(22, true, Some "ssh"%string)]).
Proof.
  eexists. split; [vm_compute; reflexivity|]. split; [reflexivity|].
  eapply (report_sorted (args_of "localhost" 20 22 3) world_22_80 last_first);
    [vm_compute; reflexivity | reflexivity].
Defined.

(** C10.  The for loop takes the futures in submission order, that of
    the ports: [results] holds the open tuples of the first [it] futures,
    in that order, so it is in ascending port order already, [sorted]
    returns it unchanged, and the rows of the report are [results]
    itself. *)
Theorem sorted_results_unchanged a world sched s :
  main a world sched = Some s →
  results s = omap opened (take (it s) (futures s)) ∧
  ascending (results s) ∧
  sorted (results s) = Ok (results s) ∧
  (∀ rows, report s = Some rows → rows = results s).
Proof.
  intros Hrun. pose proof (inv_main _ _ _ _ Hrun) as Hinv.
  pose proof (results_ascending _ _ _ Hinv) as Hasc. split_and!.
  - apply (inv_results _ _ _ Hinv).
  - done.
  - by apply sorted_ascending.
  - intros rows. rewrite (inv_report _ _ _ Hinv).
    destruct (reported (pc s)); [|done]. by intros [= <-].
Qed.

Lemma sorted_results_unchanged_witness :
  ∃ s, main (args_of "localhost" 1 100 10) world_22_80 (sequential 100) = Some s ∧
       results s = [(22, true, Some "ssh"%string); (80, true, Some "http"%string)] ∧
       sorted (results s) = Ok (results s).
Proof.
  eexists. split; [vm_compute; reflexivity|]. split; [reflexivity|].
  eapply (sorted_results_unchanged (args_of "localhost" 1 100 10) world_22_80
            (sequential 100)).
  vm_compute; reflexivity.
Defined.

(** ** One probe per port *)

Lemma done_connects_sublist (fs : list Future) :
  (∀ f r, f ∈ fs → fut_state f = Finished r →
          connects r.1 = [] ∨ connects r.1 = [fut_port f]) →
  done_connects fs `sublist_of` fut_port <$> fs.
Proof.
  unfold done_connects.
  induction fs as [|f fs IH]; intros Hone; [constructor|].
  rewrite bind_cons, fmap_cons.
  assert (IH' : fs ≫= (λ f, match fut_state f with
                            | Finished r => connects r.1
                            | _ => []
                            end) `sublist_of` fut_port <$> fs).
  { apply IH. intros f' r' Hin. apply Hone. by apply list_elem_of_further. }
  destruct (fut_state f) as [| |r] eqn:Hst; simpl; try by apply sublist_cons.
  destruct (Hone f r (list_elem_of_here _ _) Hst) as [-> | ->]; simpl.
  - by apply sublist_cons.
  - by apply sublist_skip.
Qed.

Lemma outcomes_length (fs : list Future) :
  Forall (λ f, is_Some (outcome f)) fs →
  (length (omap returned fs) + length (omap raised fs))%nat = length fs.
Proof.
  induction 1 as [|f fs [[tr r] Hf] _ IH]; [done|].
  change (omap returned (f :: fs))
    with (match returned f with
          | Some t => t :: omap returned fs
          | None => omap returned fs
          end).
  change (omap raised (f :: fs))
    with (match raised f with
          | Some e => e :: omap raised fs
          | None => omap raised fs
          end).
  unfold returned at 1, raised at 1. rewrite Hf.
  destruct r; simpl; lia.
Qed.

Section Count.
Variables (a : Args) (world : Z → ProbeEnv).

Lemma log_connects_sublist s :
  Inv a world s → ∃ l, connects (log s) ≡ₚ l ∧ l `sublist_of` fut_port <$> futures s.
Proof.
  intros Hinv. exists (done_connects (futures s)).
  split; [apply (inv_log _ _ _ Hinv)|].
  apply done_connects_sublist. intros f r [i Hi]%list_elem_of_lookup Hst.
  destruct (inv_outcome _ _ _ Hinv i f r Hi Hst) as (b & -> & _).
  apply scan_port_connects.
Qed.

(** No port is connected to twice, in any scan. *)
Lemma connects_once s :
  Inv a world s → NoDup (connects (log s)) ∧ connects (log s) ⊆ ports a.
Proof.
  intros Hinv. destruct (log_connects_sublist s Hinv) as (l & Hperm & Hsub).
  rewrite (inv_ports _ _ _ Hinv) in Hsub.
  assert (Hsub' : l `sublist_of` ports a).
  { destruct (threads a <=? 0); [|done].
    apply sublist_nil_r in Hsub as ->. apply sublist_nil_l. }
  split.
  - rewrite Hperm. apply (sublist_NoDup l (ports a)); [apply NoDup_seqZ|done].
  - intros p Hp. rewrite Hperm in Hp. exact (elem_of_sublist _ _ _ Hp Hsub').
Qed.
End Count.

(** C8 (amended).  A scan with a usable pool, over a range whose length
    [len] accepts, can always run to its end without a SIGINT, and in
    every scan that no SIGINT disturbs: one call of [scan_port] is
    submitted per port of the inclusive range, [end - start + 1] in all;
    every call is run in full, once; the loop takes the outcome of each
    of them, which is a tuple or, when the probe raised, an exception
    that the loop reports; and no port is connected to twice.  The tuples
    are [end - start + 1] exactly when no probe raises. *)
Theorem one_probe_per_port a world :
  0 < threads a →
  (∀ n, total_ports a = Ok n →
     ∃ sched s,
       (SSignal ∉ sched) ∧ main a world sched = Some s ∧ pc s = Exited) ∧
  ∀ sched s,
    SSignal ∉ sched → main a world sched = Some s → pc s = Exited →
    fut_port <$> futures s = ports a ∧
    length (futures s) = Z.to_nat (end_port a - start_port a + 1) ∧
    Forall (λ f, outcome f = Some (probe a world (fut_port f))) (futures s) ∧
    it s = length (futures s) ∧
    errors s = omap raised (futures s) ∧
    (length (omap returned (futures s)) + length (errors s))%nat
      = length (futures s) ∧
    NoDup (connects (log s)) ∧ connects (log s) ⊆ ports a.
Proof.
  intros Hth. split.
  { intros n Hn. destruct (scan_completes a world n Hth Hn) as (s & Hrun & Hpc).
    exists (sequential n), s. split; [apply sequential_no_signal|done]. }
  intros sched s Hno Hrun Hpc. pose proof (inv_main _ _ _ _ Hrun) as Hinv.
  assert (Hstop : stop_scan s = false)
    by apply (run_no_signal _ _ _ _ _ Hno (main_run _ _ _ _ Hrun)).
  assert (Hjoin : after_join (pc s) = true) by by rewrite Hpc.
  pose proof (outcomes_uninterrupted _ _ _ Hinv Hstop Hjoin) as Hout.
  assert (Hports : fut_port <$> futures s = ports a).
  { rewrite (inv_ports _ _ _ Hinv). by destruct (Z.leb_spec (threads a) 0); [lia|]. }
  assert (Hit : it s = length (futures s)).
  { destruct (inv_left _ _ _ Hinv) as [?|Hit]; [by rewrite Hpc|congruence|done]. }
  assert (Herr : errors s = omap raised (futures s)).
  { by rewrite (inv_errors _ _ _ Hinv), Hit, firstn_all. }
  split_and!; try done.
  - rewrite <- (length_fmap fut_port), Hports. unfold ports.
    rewrite length_seqZ. f_equal. lia.
  - rewrite Herr. apply outcomes_length.
    eapply Forall_impl; [exact Hout|]. intros f ->. by eexists.
  - by apply (connects_once a world).
  - by apply (connects_once a world).
Qed.

Lemma one_probe_per_port_witness :
  ∃ s, main (args_of "localhost" 1 100 10) world_22_80 (sequential 100) = Some s ∧
       length (futures s) = 100%nat ∧
       (length (omap returned (futures s)) + length (errors s))%nat
         = length (futures s) ∧
       NoDup (connects (log s)).
Proof.
  eexists. split; [vm_compute; reflexivity|].
  destruct (one_probe_per_port (args_of "localhost" 1 100 10) world_22_80)
    as [_ Hall]; [done|].
  edestruct (Hall (sequential 100))
    as (_ & Hlen & _ & _ & _ & Hsum & Hnd & _);
    [ | vm_compute; reflexivity | reflexivity |].
  - apply sequential_no_signal.
  - split; [exact Hlen|]. split; [exact Hsum | exact Hnd].
Defined.

(** C8, as stated, fails: the host name cannot be encoded by the idna
    codec, so [connect_ex] raises an exception that is not an [OSError];
    the probe lets it through and the loop reports it.  The scan of the
    one port of a valid range is not interrupted and yields no tuple at
    all. *)
Lemma raising_probe_gives_no_tuple :
  ∃ s, main (args_of "münchen..de" 80 80 1) (λ _, os_bad_name) (sequential 1) = Some s ∧
       pc s = Exited ∧ stop_scan s = false ∧
       length (futures s) = 1%nat ∧
       omap returned (futures s) = [] ∧
       errors s = [TypeError].
Proof.
  eexists. split; [vm_compute; reflexivity|]. by repeat split.
Qed.

(** ** Cancellation *)

Section Cancellation.
Variables (a : Args) (world : Z → ProbeEnv).

(** The outcome of a call that has returned is final. *)
Lemma finished_step ev s s' i f :
  futures s !! i = Some f → is_finished f = true →
  step a world ev s = Some s' → futures s' !! i = Some f.
Proof.
  intros Hi Hf. destruct ev as [|j|j|]; simpl.
  - destruct (pc s); try done; by intros [= <-].
  - destruct (futures s !! j) as [[port [| |r]]|] eqn:Hj; try done.
    destruct (_ <? _); [|done]. intros [= <-]. simpl.
    destruct (decide (i = j)) as [->|]; [|by rewrite list_lookup_insert_ne].
    rewrite Hi in Hj. by injection Hj as ->.
  - destruct (futures s !! j) as [[port [| |r]]|] eqn:Hj; try done.
    intros [= <-]. simpl.
    destruct (decide (i = j)) as [->|]; [|by rewrite list_lookup_insert_ne].
    rewrite Hi in Hj. by injection Hj as ->.
  - unfold main_step.
    destruct (pc s) as [| | |pending|pending|]; try done.
    + destruct (futures s !! it s); [destruct (stop_scan s)|];
        by intros [= <-].
    + destruct (futures s !! it s) as [[port [| |r]]|]; try done.
      by intros [= <-].
    + destruct (forallb _ _); [|done]. by intros [= <-].
    + destruct (print_results _); by intros [= <-].
    + destruct (stop_scan s); [|destruct pending]; by intros [= <-].
Qed.

Lemma finished_run sched s s' i f :
  futures s !! i = Some f → is_finished f = true →
  run a world sched s = Some s' → futures s' !! i = Some f.
Proof.
  revert s. induction sched as [|ev sched IH]; intros s Hi Hf; simpl.
  - by intros [= <-].
  - destruct (step a world ev s) as [s1|] eqn:Hstep; [|done]. simpl.
    apply IH; [|done]. by eapply finished_step.
Qed.

(** Once the flag is set and the main thread is not waiting for a
    future, [results] does not change any more. *)
Lemma frozen_step ev s s' :
  stop_scan s = true → pc s ≠ Await → step a world ev s = Some s' →
  pc s' ≠ Await ∧ results s' = results s.
Proof.
  intros Hstop Hpc. destruct ev as [|j|j|]; simpl.
  - destruct (pc s) eqn:E; try done; intros [= <-]; simpl; by rewrite E.
  - destruct (futures s !! j) as [[port [| |r]]|]; try done.
    destruct (_ <? _); [|done]. by intros [= <-].
  - destruct (futures s !! j) as [[port [| |r]]|]; try done.
    by intros [= <-].
  - unfold main_step. rewrite Hstop.
    destruct (pc s) as [| | |pending|pending|] eqn:E; try done.
    + destruct (futures s !! it s); by intros [= <-].
    + destruct (forallb _ _); [|done]. by intros [= <-].
    + destruct (print_results _); by intros [= <-].
    + by intros [= <-].
Qed.

Lemma frozen_run sched s s' :
  stop_scan s = true → pc s ≠ Await → run a world sched s = Some s' →
  pc s' ≠ Await ∧ results s' = results s.
Proof.
  revert s. induction sched as [|ev sched IH]; intros s Hstop Hpc; simpl.
  - by intros [= <-].
  - destruct (step a world ev s) as [s1|] eqn:Hstep; [|done]. simpl.
    intros Hrun. destruct (frozen_step _ _ _ Hstop Hpc Hstep) as [Hpc1 Hres1].
    rewrite <- Hres1. apply IH; [|done..].
    rewrite (step_stop_scan _ _ _ _ _ Hstep). by destruct ev.
Qed.

(** When the flag is set while the main thread waits for a future, the
    loop still handles the outcome of that future, and of no other. *)
Lemma await_step ev s s' :
  pc s = Await → step a world ev s = Some s' →
  (pc s' = Await ∧ results s' = results s ∧ it s' = it s) ∨
  (pc s' = LoopHead ∧
   ∃ f, futures s !! it s = Some f ∧ is_finished f = true ∧
        results s' = results s ++ option_list (opened f)).
Proof.
  intros Hpc. destruct ev as [|j|j|]; simpl.
  - rewrite Hpc. intros [= <-]. by left.
  - destruct (futures s !! j) as [[port [| |r]]|]; try done.
    destruct (_ <? _); [|done]. intros [= <-]. by left.
  - destruct (futures s !! j) as [[port [| |r]]|]; try done.
    intros [= <-]. by left.
  - unfold main_step. rewrite Hpc.
    destruct (futures s !! it s) as [[port [| |r]]|] eqn:Hf; try done.
    intros [= <-]. right. split; [done|]. eexists. split; [done|].
    split; [done|]. simpl. unfold opened, outcome, open_tuple. simpl.
    destruct r as [tr [t|e]]; simpl; [destruct (tuple_status t)|];
      by rewrite ?app_nil_r.
Qed.

Lemma await_run sched s s' :
  stop_scan s = true → pc s = Await → run a world sched s = Some s' →
  (pc s' = Await ∧ results s' = results s ∧ it s' = it s) ∨
  (pc s' ≠ Await ∧
   ∃ f, futures s' !! it s = Some f ∧
        results s' = results s ++ option_list (opened f)).
Proof.
  revert s. induction sched as [|ev sched IH]; intros s Hstop Hpc; simpl.
  - intros [= <-]. by left.
  - destruct (step a world ev s) as [s1|] eqn:Hstep; [|done]. simpl.
    intros Hrun.
    assert (Hstop1 : stop_scan s1 = true).
    { rewrite (step_stop_scan _ _ _ _ _ Hstep). by destruct ev. }
    destruct (await_step _ _ _ Hpc Hstep)
      as [(Hpc1 & Hres1 & Hit1)|(Hpc1 & f & Hf & Hfin & Hres1)].
    + rewrite <- Hres1, <- Hit1. by apply IH.
    + right.
      destruct (frozen_run sched s1 s') as [Hpc' Hres']; [done|congruence|done|].
      split; [done|]. exists f. split; [|congruence].
      eapply finished_run; [|done|done]. by eapply finished_step.
Qed.
End Cancellation.

(** C4 (amended).  When the first SIGINT arrives while the main thread
    is in its loop, every tuple that [results] holds at that moment is in
    the final report, in the same order, and the scan ends interrupted
    (message and exit status 1) without a crash.  The report holds
    nothing else when the signal arrives at the head of the loop.  When
    it arrives while the main thread waits for a future, the report holds
    at most one more tuple, the one of that future if it is open. *)
Theorem cancellation_keeps_results a world sched1 sched2 s1 s2 :
  main a world sched1 = Some s1 → stop_scan s1 = false →
  in_loop (pc s1) = true →
  run a world (SSignal :: sched2) s1 = Some s2 → pc s2 = Exited →
  exit_status s2 = Some ExitInterrupted ∧
  ∃ extra,
    report s2 = Some (results s1 ++ extra) ∧
    (pc s1 = LoopHead → extra = []) ∧
    (extra = [] ∨
     ∃ f t, futures s2 !! it s1 = Some f ∧ opened f = Some t ∧ extra = [t]).
Proof.
  intros Hrun1 Hstop1 Hloop Hrun2 Hpc2.
  pose proof (inv_main _ _ _ _ Hrun1) as Hinv1.
  pose proof (inv_run _ _ _ _ _ Hinv1 Hrun2) as Hinv2.
  simpl in Hrun2.
  assert (Hsig : run a world sched2 (signal_handler s1) = Some s2).
  { destruct (pc s1); try done. }
  assert (Hstop2 : stop_scan s2 = true)
    by exact (run_stop_scan a world sched2 (signal_handler s1) s2 eq_refl Hsig).
  assert (Hrep : report s2 = Some (results s2)).
  { by rewrite (inv_report _ _ _ Hinv2), Hpc2. }
  split.
  { rewrite (inv_exit _ _ _ Hinv2), Hpc2. unfold final_status. by rewrite Hstop2. }
  destruct (pc s1) eqn:Hpc1; try done.
  - destruct (frozen_run a world sched2 (signal_handler s1) s2) as [_ Hres];
      [done|simpl; congruence|done|].
    exists []. rewrite app_nil_r, Hrep, Hres. simpl. split_and!; auto.
  - destruct (await_run a world sched2 (signal_handler s1) s2)
      as [(Hpc' & _)|(_ & f & Hf & Hres)]; [done|done|done|congruence|].
    simpl in Hf, Hres. exists (option_list (opened f)).
    rewrite Hrep, Hres. split_and!; [done|done|].
    destruct (opened f) as [t|] eqn:Ht; simpl; [|by left].
    right. by exists f, t.
Qed.

Lemma cancellation_keeps_results_witness :
  let a := args_of "localhost" 1 3 3 in
  let before := [SStart 0; SStart 1; SStart 2; SFinish 0; SMain; SMain] in
  let after := [SFinish 1; SFinish 2] ++ wind_up in
  ∃ s1 s2,
    main a world_all_open before = Some s1 ∧
    run a world_all_open (SSignal :: after) s1 = Some s2 ∧
    pc s1 = LoopHead ∧
    results s1 = [(1, true, Some "unknown"%string)] ∧
    exit_status s2 = Some ExitInterrupted ∧
    ∃ extra, report s2 = Some (results s1 ++ extra) ∧ extra = [].
Proof.
  intros a before after. eexists _, _.
  split; [vm_compute; reflexivity|]. split; [vm_compute; reflexivity|].
  split; [reflexivity|]. split; [reflexivity|].
  edestruct (cancellation_keeps_results a world_all_open before after)
    as (Hexit & extra & Hrep & Hnil & _);
    [vm_compute; reflexivity | reflexivity | reflexivity
    | vm_compute; reflexivity | reflexivity |].
  split; [exact Hexit|]. exists extra. split; [exact Hrep|]. by apply Hnil.
Defined.

(** C4, as stated, fails: the SIGINT arrives while the main thread waits
    for the probe of port 2, with one open tuple collected; that probe
    then returns an open tuple, which the loop appends before it tests
    the flag, so the report has two rows. *)
Lemma cancellation_adds_awaited_result :
  let a := args_of "localhost" 1 3 3 in
  let before :=
    [SStart 0; SStart 1; SStart 2; SFinish 0; SMain; SMain; SMain] in
  let after := [SFinish 1; SFinish 2; SMain] ++ wind_up in
  ∃ s1 s2,
    main a world_all_open before = Some s1 ∧
    run a world_all_open (SSignal :: after) s1 = Some s2 ∧
    stop_scan s1 = false ∧ pc s1 = Await ∧
    results s1 = [(1, true, Some "unknown"%string)] ∧
    pc s2 = Exited ∧ exit_status s2 = Some ExitInterrupted ∧
    report s2 = Some [(1, true, Some "unknown"%string);
                      (2, true, Some "unknown"%string)] ∧
    report s2 ≠ Some (results s1).
Proof.
  intros a before after. eexists _, _.
  split; [vm_compute; reflexivity|]. split; [vm_compute; reflexivity|].
  repeat (split; [reflexivity|]). discriminate.
Qed.

(** ** A host name that does not resolve *)

Lemma unresolved_not_open target port timeout os stop pb :
  os_connect_ex os = Raise Gaierror →
  open_tuple (scan_port target port timeout os stop pb) = None.
Proof.
  intros Hc. unfold open_tuple, scan_port, scan_port_finally,
    scan_port_except, scan_port_try. rewrite Hc.
  destruct stop; [done|].
  destruct (os_socket os) as [[]|e0]; simpl; [|done].
  destruct (os_settimeout os) as [[]|e1]; simpl; [done|].
  by destruct (is_gaierror e1), (is_socket_error e1).
Qed.

Lemma omap_all_None {A B} (g : A → option B) (l : list A) :
  Forall (λ x, g x = None) l → omap g l = [].
Proof.
  induction 1 as [|x l Hx _ IH]; [done|].
  change (omap g (x :: l))
    with (match g x with Some y => y :: omap g l | None => omap g l end).
  by rewrite Hx.
Qed.

Section Outcome.
Variables (a : Args) (world : Z → ProbeEnv).

Lemma exit_ok s :
  Inv a world s → pc s = Exited → stop_scan s = false → 0 < threads a →
  exit_status s = Some ExitOk.
Proof.
  intros Hinv Hpc Hstop Hth.
  rewrite (inv_exit _ _ _ Hinv), Hpc. unfold final_status. rewrite Hstop.
  by destruct (Z.leb_spec (threads a) 0); [lia|].
Qed.

Lemma unresolved_results s :
  (∀ port, os_connect_ex (world port) = Raise Gaierror) →
  Inv a world s → results s = [].
Proof.
  intros Hres Hinv. rewrite (inv_results _ _ _ Hinv).
  apply omap_all_None, Forall_lookup. intros i f Hi.
  apply lookup_take_Some in Hi as [Hi _].
  unfold opened, outcome. destruct (fut_state f) as [| |r] eqn:Hst; try done.
  destruct (inv_outcome _ _ _ Hinv i f r Hi Hst) as (b & -> & _).
  simpl. by apply unresolved_not_open.
Qed.

(** Without ports nothing is submitted and no probe has any effect. *)
Lemma idle_run sched s s' :
  futures s = [] → run a world sched s = Some s' →
  futures s' = [] ∧ log s' = log s.
Proof.
  revert s. induction sched as [|ev sched IH]; intros s Hfs; simpl.
  - by intros [= <-].
  - destruct (step a world ev s) as [s1|] eqn:Hstep; [|done]. simpl.
    intros Hrun.
    assert (futures s1 = [] ∧ log s1 = log s) as [Hfs1 Hlog1].
    { destruct ev as [|i|i|]; simpl in Hstep.
      - destruct (pc s); try done; by injection Hstep as <-.
      - by rewrite Hfs in Hstep.
      - by rewrite Hfs in Hstep.
      - unfold main_step in Hstep.
        destruct (pc s) as [| | |pending|pending|]; try done.
        + destruct (futures s !! it s); [destruct (stop_scan s)|];
            by injection Hstep as <-.
        + by rewrite Hfs in Hstep.
        + destruct (forallb _ _); [|done]. by injection Hstep as <-.
        + destruct (print_results _); by injection Hstep as <-.
        + destruct (stop_scan s); [|destruct pending];
            by injection Hstep as <-. }
    rewrite <- Hlog1. by apply IH.
Qed.
End Outcome.

(** C1 (amended).  A host name that does not resolve is not fatal.  The
    probe that reaches the connect catches the [gaierror], prints a
    message, closes its socket and returns [(port, False, None)].  The
    coordinator does not stop: every call that was submitted returns, the
    report is printed and has no row; when no SIGINT is delivered the
    scan ends with the normal exit status and has attempted the connect
    of every port whose socket could be set up.  Such a scan exists, with
    a usable pool, for every range whose length [len] accepts. *)
Theorem unresolved_host_not_fatal a world :
  (∀ port, os_connect_ex (world port) = Raise Gaierror) →
  (∀ port,
     os_socket (world port) = Ok () → os_settimeout (world port) = Ok () →
     probe a world port
     = ([EvSocket; EvSetTimeout (timeout a); EvConnect (target a) port;
         EvPrint "[!] Hostname could not be resolved"; EvClose; EvProgress],
        Ok (port, false, None))) ∧
  (∀ sched s,
     main a world sched = Some s → pc s = Exited →
     report s = Some [] ∧
     Forall (λ f, is_finished f = true) (futures s) ∧
     (0 < threads a → SSignal ∉ sched →
      exit_status s = Some ExitOk ∧
      fut_port <$> futures s = ports a ∧
      ∀ port, port ∈ ports a →
              os_socket (world port) = Ok () →
              os_settimeout (world port) = Ok () →
              port ∈ connects (log s))) ∧
  (0 < threads a → ∀ n, total_ports a = Ok n →
   ∃ s, main a world (sequential n) = Some s ∧ pc s = Exited).
Proof.
  intros Hres.
  assert (Hprobe : ∀ port,
    os_socket (world port) = Ok () → os_settimeout (world port) = Ok () →
    probe a world port
    = ([EvSocket; EvSetTimeout (timeout a); EvConnect (target a) port;
        EvPrint "[!] Hostname could not be resolved"; EvClose; EvProgress],
       Ok (port, false, None))).
  { intros port Hs Ht. unfold probe, scan_port, scan_port_finally,
      scan_port_except, scan_port_try. by rewrite Hs, Ht, Hres. }
  split_and!; [done| |intros Hth n Hn; by apply scan_completes].
  intros sched s Hrun Hpc. pose proof (inv_main _ _ _ _ Hrun) as Hinv.
  assert (Hjoin : after_join (pc s) = true) by by rewrite Hpc.
  split_and!.
  - rewrite (inv_report _ _ _ Hinv), Hpc. simpl.
    by rewrite (unresolved_results a world s Hres Hinv).
  - by apply (inv_joined _ _ _ Hinv).
  - intros Hth Hno.
    assert (Hstop : stop_scan s = false)
      by apply (run_no_signal _ _ _ _ _ Hno (main_run _ _ _ _ Hrun)).
    assert (Hports : fut_port <$> futures s = ports a).
    { rewrite (inv_ports _ _ _ Hinv).
      by destruct (Z.leb_spec (threads a) 0); [lia|]. }
    split_and!; [by apply (exit_ok a world)|done|].
    intros port Hin Hs Ht. rewrite (inv_log _ _ _ Hinv).
    rewrite <- Hports in Hin.
    apply list_elem_of_fmap in Hin as (f & -> & Hf).
    pose proof (outcomes_uninterrupted _ _ _ Hinv Hstop Hjoin) as Hout.
    rewrite Forall_forall in Hout. specialize (Hout f Hf).
    unfold done_connects. apply list_elem_of_bind. exists f. split; [|done].
    unfold outcome in Hout. destruct (fut_state f) as [| |r]; try done.
    injection Hout as ->. rewrite (Hprobe _ Hs Ht). simpl.
    apply list_elem_of_here.
Qed.

Lemma unresolved_host_not_fatal_witness :
  ∃ s, main (args_of "nosuch.invalid" 1 2 2) (λ _, os_unresolved)
         (sequential 2) = Some s ∧
       report s = Some [] ∧ exit_status s = Some ExitOk ∧
       1 ∈ connects (log s).
Proof.
  eexists. split; [vm_compute; reflexivity|].
  destruct (unresolved_host_not_fatal (args_of "nosuch.invalid" 1 2 2)
              (λ _, os_unresolved)) as (_ & Hall & _); [reflexivity|].
  edestruct (Hall (sequential 2)) as (Hrep & _ & Hok);
    [vm_compute; reflexivity | reflexivity |].
  destruct Hok as (Hexit & _ & Hconn); [done | apply sequential_no_signal |].
  split; [exact Hrep|]. split; [exact Hexit|].
  apply Hconn; [|reflexivity|reflexivity].
  vm_compute. apply list_elem_of_here.
Defined.

(** C1, as stated, fails: with a name that does not resolve, both ports
    of the range are probed, the report is printed (empty), and the scan
    ends with the normal exit status. *)
Lemma unresolved_host_is_scanned :
  ∃ s, main (args_of "nosuch.invalid" 1 2 2) (λ _, os_unresolved)
         (sequential 2) = Some s ∧
       pc s = Exited ∧ connects (log s) = [1; 2] ∧
       report s = Some [] ∧ exit_status s = Some ExitOk.
Proof.
  eexists. split; [vm_compute; reflexivity|]. by repeat split.
Qed.

(** ** The port range *)

(** C2 (amended).  [main] does not check that
    [1 <= start <= end <= 65535].  The only pair of integers that it
    rejects is one whose range has more than [sys.maxsize] ports: then
    [len(ports)] raises [OverflowError] and [main] ends with that
    traceback before the banner, without a probe or a report.  For every
    other pair, with a positive thread count, [main] submits one call per
    port of [range(start, end + 1)] as given and the scan can run to its
    normal end, also when [start < 1] or [end > 65535].  When
    [start > end] (100 and 50, say) that range is empty: nothing is
    submitted and no probe has any effect, and with a positive thread
    count the scan ends with an empty report and the normal exit status
    instead of failing. *)
Theorem range_not_validated a world :
  (sys_maxsize < end_port a + 1 - start_port a →
   total_ports a = Raise (OtherException "OverflowError") ∧
   main_start a = Raise (OtherException "OverflowError") ∧
   ∀ sched, main a world sched = None) ∧
  (end_port a + 1 - start_port a ≤ sys_maxsize →
   main_start a = Ok (main_init a) ∧
   (0 < threads a →
    futures (main_init a)
      = submit <$> seqZ (start_port a) (end_port a + 1 - start_port a) ∧
    pc (main_init a) = LoopHead ∧
    ∃ s, main a world (sequential (length (ports a))) = Some s ∧
         pc s = Exited ∧ is_Some (report s) ∧ exit_status s = Some ExitOk)) ∧
  (end_port a < start_port a →
   (∀ sched s, main a world sched = Some s → futures s = [] ∧ log s = []) ∧
   (0 < threads a →
    ∃ s, main a world wind_up = Some s ∧ pc s = Exited ∧
         report s = Some [] ∧ exit_status s = Some ExitOk)).
Proof.
  assert (Hfit : end_port a + 1 - start_port a ≤ sys_maxsize →
                 total_ports a = Ok (length (ports a))).
  { intros Hle. unfold total_ports.
    by destruct (Z.ltb_spec sys_maxsize (end_port a + 1 - start_port a));
      [lia|]. }
  assert (Hends : 0 < threads a →
                  end_port a + 1 - start_port a ≤ sys_maxsize →
                  ∃ s, main a world (sequential (length (ports a))) = Some s ∧
                       pc s = Exited ∧ report s = Some (results s) ∧
                       exit_status s = Some ExitOk).
  { intros Hth Hle.
    destruct (scan_completes a world _ Hth (Hfit Hle)) as (s & Hrun & Hpc).
    pose proof (inv_main _ _ _ _ Hrun) as Hinv.
    assert (Hstop : stop_scan s = false).
    { apply (run_no_signal a world (sequential (length (ports a)))
               (main_init a)); [apply sequential_no_signal|].
      by apply main_run. }
    exists s. split_and!; [done|done| |].
    - by rewrite (inv_report _ _ _ Hinv), Hpc.
    - by apply (exit_ok a world). }
  split_and!.
  - intros Hlt.
    assert (Hraise : total_ports a = Raise (OtherException "OverflowError")).
    { unfold total_ports.
      by destruct (Z.ltb_spec sys_maxsize (end_port a + 1 - start_port a));
        [|lia]. }
    split_and!; [done| |intros sched]; unfold main, main_start;
      by rewrite Hraise.
  - intros Hle. split.
    { unfold main_start. by rewrite (Hfit Hle). }
    intros Hth. split_and!.
    + unfold main_init. simpl. by destruct (Z.leb_spec (threads a) 0); [lia|].
    + unfold main_init. simpl. by destruct (Z.leb_spec (threads a) 0); [lia|].
    + destruct (Hends Hth Hle) as (s & Hrun & Hpc & Hrep & Hexit).
      exists s. split_and!; try done; by rewrite Hrep.
  - intros Hlt.
    assert (Hnil : ports a = []) by (unfold ports; apply seqZ_nil; lia).
    assert (Hidle : ∀ sched s', main a world sched = Some s' →
                                futures s' = [] ∧ log s' = []).
    { intros sched s' Hrun'%main_run.
      apply (idle_run a world sched (main_init a)); [|done].
      unfold main_init. simpl. rewrite Hnil. by destruct (threads a <=? 0). }
    split; [done|]. intros Hth.
    pose proof sys_maxsize_nonneg as Hmax.
    destruct (Hends Hth) as (s & Hrun & Hpc & Hrep & Hexit); [lia|].
    rewrite Hnil in Hrun. exists s. split_and!; try done.
    pose proof (inv_main _ _ _ _ Hrun) as Hinv.
    rewrite Hrep, (inv_results _ _ _ Hinv).
    destruct (Hidle _ _ Hrun) as [-> _]. by rewrite take_nil.
Qed.

Lemma range_not_validated_witness :
  let a := args_of "localhost" 100 50 10 in
  let huge := args_of "localhost" 1 99999999999999999999 10 in
  (ports a = [] ∧
   ∃ s, main a world_22_80 wind_up = Some s ∧ pc s = Exited ∧
        report s = Some [] ∧ exit_status s = Some ExitOk) ∧
  main_start huge = Raise (OtherException "OverflowError").
Proof.
  intros a huge. split.
  - split; [reflexivity|].
    destruct (range_not_validated a world_22_80) as (_ & _ & Hempty).
    destruct Hempty as [_ Hend]; [reflexivity|]. by apply Hend.
  - destruct (range_not_validated huge world_22_80) as (Hover & _).
    by destruct Hover as (_ & Hstart & _).
Defined.

(** C2, as stated, fails: the range 100-50 is not rejected, the scan
    ends normally with an empty report; and the range 0-0, which is not
    within 1..65535 either, has its port probed. *)
Lemma invalid_range_is_accepted :
  (∃ s, main (args_of "localhost" 100 50 10) world_22_80 wind_up = Some s ∧
        pc s = Exited ∧ report s = Some [] ∧ exit_status s = Some ExitOk) ∧
  (∃ s, main (args_of "localhost" 0 0 1) world_22_80 (sequential 1) = Some s ∧
        pc s = Exited ∧ connects (log s) = [0] ∧
        exit_status s = Some ExitOk).
Proof.
  split; eexists; (split; [vm_compute; reflexivity|]); by repeat split.
Qed.

(** * Further properties *)

(** ** The probe *)

(** X1.  A probe returns an open tuple exactly when it was not cancelled
    on entry, its socket was created and configured, and [connect_ex]
    returned 0; no other outcome of the system calls is ever reported as
    an open port. *)
Theorem scan_port_open_iff target port timeout os stop pb :
  tuple_status <$> returned_tuple (scan_port target port timeout os stop pb)
    = Some true
  ↔ stop = false ∧ os_socket os = Ok () ∧ os_settimeout os = Ok () ∧
    os_connect_ex os = Ok 0.
Proof.
  unfold returned_tuple, scan_port, scan_port_finally, scan_port_except,
    scan_port_try.
  destruct stop; simpl; [split; [done|by intros [? _]]|].
  destruct (os_socket os) as [[]|e0]; simpl;
    [|split; [done|by intros (_ & ? & _)]].
  destruct (os_settimeout os) as [[]|e1]; simpl.
  - destruct (os_connect_ex os) as [errno|e2]; simpl.
    + destruct (Z.eqb_spec errno 0) as [->|Hne]; simpl.
      * by split.
      * split; [done|]. intros (_ & _ & _ & [= ?]). done.
    + destruct (is_gaierror e2), (is_socket_error e2); simpl;
        (split; [done|by intros (_ & _ & _ & ?)]).
  - destruct (is_gaierror e1), (is_socket_error e1); simpl;
      (split; [done|by intros (_ & _ & ? & _)]).
Qed.

(** X2.  When [socket.socket] itself raises, the probe never returns a
    tuple: whatever was raised, and although the handlers of
    [socket.error] would return [(port, False, None)], the [finally]
    clause calls [sock.close()] on a name that was never bound and the
    probe raises [UnboundLocalError]; nothing is closed and the progress
    bar is not updated. *)
Theorem scan_port_socket_failure target port timeout os pb e :
  os_socket os = Raise e →
  (scan_port target port timeout os false pb).2 = Raise UnboundLocalError ∧
  count is_socket (scan_port target port timeout os false pb).1 = 0%nat ∧
  count is_close (scan_port target port timeout os false pb).1 = 0%nat ∧
  count is_progress (scan_port target port timeout os false pb).1 = 0%nat.
Proof.
  intros He.
  unfold scan_port, scan_port_finally, scan_port_except, scan_port_try.
  rewrite He. simpl.
  by destruct (is_gaierror e), (is_socket_error e).
Qed.

Lemma scan_port_socket_failure_witness :
  let os := {| os_socket := Raise OSError; os_settimeout := Ok ();
               os_connect_ex := Ok 0; os_getservbyport := Ok "ssh"%string |} in
  (scan_port "localhost" 22 1%Q os false true).2 = Raise UnboundLocalError.
Proof.
  intros os.
  exact (proj1 (scan_port_socket_failure "localhost" 22 1%Q os true OSError
                  eq_refl)).
Defined.

(** X3.  No socket error escapes a probe: whatever the system calls
    raise, an exception that leaves [scan_port] is neither a [gaierror]
    nor any other [OSError]. *)
Theorem scan_port_no_socket_error target port timeout os stop pb e :
  (scan_port target port timeout os stop pb).2 = Raise e →
  is_socket_error e = false.
Proof.
  unfold scan_port, scan_port_finally, scan_port_except, scan_port_try.
  destruct stop; simpl; [done|].
  destruct (os_socket os) as [[]|e0]; simpl; [|by intros [= <-]].
  destruct (os_settimeout os) as [[]|e1]; simpl.
  - destruct (os_connect_ex os) as [errno|e2]; simpl.
    + by destruct (errno =? 0).
    + destruct (is_gaierror e2) eqn:Hg, (is_socket_error e2) eqn:Hs; simpl;
        try done; by intros [= <-].
  - destruct (is_gaierror e1) eqn:Hg, (is_socket_error e1) eqn:Hs; simpl;
      try done; by intros [= <-].
Qed.

Lemma scan_port_no_socket_error_witness :
  is_socket_error TypeError = false.
Proof.
  exact (scan_port_no_socket_error "localhost" 80 1%Q os_bad_name false true
           TypeError eq_refl).
Defined.

(** X4.  An exception of [settimeout] or [connect_ex] that is not a
    socket error goes through the probe unchanged (the loop of [main]
    then reports it), after the socket has been closed. *)
Theorem scan_port_propagates target port timeout os pb e :
  os_socket os = Ok () →
  (os_settimeout os = Raise e ∨
   os_settimeout os = Ok () ∧ os_connect_ex os = Raise e) →
  is_socket_error e = false →
  (scan_port target port timeout os false pb).2 = Raise e ∧
  count is_close (scan_port target port timeout os false pb).1 = 1%nat.
Proof.
  intros Hs Hraise He.
  assert (Hg : is_gaierror e = false) by (by destruct e).
  unfold scan_port, scan_port_finally, scan_port_except, scan_port_try.
  rewrite Hs. destruct Hraise as [-> | [-> ->]]; simpl;
    rewrite Hg, He; simpl; by destruct pb.
Qed.

Lemma scan_port_propagates_witness :
  (scan_port "localhost" 80 1%Q os_bad_name false true).2 = Raise TypeError.
Proof.
  refine (proj1 (scan_port_propagates "localhost" 80 1%Q os_bad_name true
                   TypeError eq_refl _ eq_refl)).
  right. by split.
Defined.

(** X5.  In the trace of any probe the sockets created, the sockets
    closed and the updates of the progress bar are as many, one or none:
    the bar is updated once by every probe that created a socket, and
    not by a probe that was cancelled on entry or whose socket could not
    be created.  A probe prints at most one message. *)
Theorem scan_port_balance target port timeout os stop :
  let tr := (scan_port target port timeout os stop true).1 in
  count is_close tr = count is_socket tr ∧
  count is_progress tr = count is_socket tr ∧
  count is_socket tr = (if stop then 0 else
                        match os_socket os with Ok _ => 1 | Raise _ => 0 end)%nat ∧
  (count is_print tr ≤ 1)%nat.
Proof.
  unfold scan_port, scan_port_finally, scan_port_except, scan_port_try.
  destruct stop; simpl; [repeat split; vm_compute; lia|].
  destruct (os_socket os) as [[]|e0]; simpl.
  - destruct (os_settimeout os) as [[]|e1]; simpl.
    + destruct (os_connect_ex os) as [errno|e2]; simpl.
      * destruct (errno =? 0); simpl; repeat split; vm_compute; lia.
      * destruct (is_gaierror e2), (is_socket_error e2); simpl;
          repeat split; vm_compute; lia.
    + destruct (is_gaierror e1), (is_socket_error e1); simpl;
        repeat split; vm_compute; lia.
  - destruct (is_gaierror e0), (is_socket_error e0); simpl;
      repeat split; vm_compute; lia.
Qed.

(** ** The port range argument *)

Lemma split_hyphen_nonempty s : split_hyphen s ≠ [].
Proof.
  destruct s as [|c s]; simpl; [done|].
  destruct (Ascii.eqb c "-"); [done|]. by destruct (split_hyphen s).
Qed.

(** What [split] returns, read from the left: a first piece without
    hyphen, and either nothing more or the pieces of what follows the
    first hyphen. *)
Lemma split_hyphen_cons s p rest :
  split_hyphen s = p :: rest →
  has_hyphen p = false ∧
  ((rest = [] ∧ s = p) ∨
   ∃ s', rest = split_hyphen s' ∧ s = (p ++ String "-" s')%string).
Proof.
  revert p rest. induction s as [|c s IH]; intros p rest; simpl.
  - intros [= <- <-]. split; [done|]. by left.
  - destruct (Ascii.eqb_spec c "-") as [->|Hc].
    + intros [= <- <-]. split; [done|]. right. by exists s.
    + destruct (split_hyphen s) as [|q qs] eqn:Hs;
        [by destruct (split_hyphen_nonempty s)|].
      intros [= <- <-]. destruct (IH q qs eq_refl) as [Hq Hcase].
      split.
      * simpl. rewrite Hq. by destruct (Ascii.eqb_spec c "-").
      * destruct Hcase as [[-> ->]|(s' & -> & ->)]; [by left|].
        right. by exists s'.
Qed.

Lemma split_hyphen_app p s :
  has_hyphen p = false →
  split_hyphen (p ++ String "-" s) = p :: split_hyphen s.
Proof.
  induction p as [|c p IH]; simpl; [done|].
  destruct (Ascii.eqb c "-"); [done|]. simpl. intros Hp. by rewrite (IH Hp).
Qed.

Lemma split_hyphen_none p : has_hyphen p = false → split_hyphen p = [p].
Proof.
  induction p as [|c p IH]; simpl; [done|].
  destruct (Ascii.eqb c "-"); [done|]. simpl. intros Hp. by rewrite (IH Hp).
Qed.

(** X6.  The ports argument yields a pair of bounds exactly when it is
    two pieces around one single hyphen and [int] accepts both pieces;
    the bounds are then the values of the pieces.  Any other argument (no
    hyphen, several hyphens, a piece that is not a number) raises before
    the scan starts. *)
Theorem parse_port_range_ok int arg start stop :
  parse_port_range int arg = Ok (start, stop) ↔
  ∃ p1 p2, arg = (p1 ++ String "-" p2)%string ∧
           has_hyphen p1 = false ∧ has_hyphen p2 = false ∧
           int p1 = Ok start ∧ int p2 = Ok stop.
Proof.
  unfold parse_port_range, unpack_two. split.
  - destruct (split_hyphen arg) as [|p1 [|p2 [|p3 rest]]] eqn:Hsplit;
      simpl; try done.
    + by destruct (int p1).
    + destruct (int p1) as [n1|] eqn:H1; simpl; [|done].
      destruct (int p2) as [n2|] eqn:H2; simpl; [|done].
      intros [= <- <-].
      destruct (split_hyphen_cons _ _ _ Hsplit) as [Hp1 [[? _]|(s' & Hs' & ->)]];
        [done|].
      symmetry in Hs'.
      destruct (split_hyphen_cons _ _ _ Hs') as [Hp2 [[_ ->]|(s'' & Hs'' & _)]].
      * by exists p1, p2.
      * symmetry in Hs''. by destruct (split_hyphen_nonempty s'').
    + destruct (int p1); simpl; [|done]. destruct (int p2); simpl; [|done].
      by destruct (int p3).
  - intros (p1 & p2 & -> & Hp1 & Hp2 & H1 & H2).
    rewrite (split_hyphen_app _ _ Hp1), (split_hyphen_none _ Hp2).
    simpl. rewrite H1. simpl. by rewrite H2.
Qed.

(** X7.  A negative number is written with a hyphen, and the pieces
    given to [int] have none: the bounds that come out of the ports
    argument are never negative, so no negative port is ever probed. *)
Theorem parse_port_range_nonneg int arg start stop :
  (∀ s n, int s = Ok n → n < 0 → has_hyphen s = true) →
  parse_port_range int arg = Ok (start, stop) →
  0 ≤ start ∧ 0 ≤ stop ∧
  ∀ port, port ∈ seqZ start (stop + 1 - start) → 0 ≤ port.
Proof.
  intros Hint Hparse. unfold parse_port_range, unpack_two in Hparse.
  destruct (split_hyphen arg) as [|p1 [|p2 [|p3 rest]]] eqn:Hsplit;
    simpl in Hparse; try done.
  - by destruct (int p1).
  - destruct (int p1) as [n1|] eqn:H1; simpl in Hparse; [|done].
    destruct (int p2) as [n2|] eqn:H2; simpl in Hparse; [|done].
    injection Hparse as -> ->.
    destruct (split_hyphen_cons _ _ _ Hsplit) as [Hp1 [[? _]|(s' & Hs' & ->)]];
      [done|].
    symmetry in Hs'. destruct (split_hyphen_cons _ _ _ Hs') as [Hp2 _].
    assert (0 ≤ start).
    { destruct (Z.lt_ge_cases start 0) as [Hneg|]; [|done].
      rewrite (Hint _ _ H1 Hneg) in Hp1. done. }
    assert (0 ≤ stop).
    { destruct (Z.lt_ge_cases stop 0) as [Hneg|]; [|done].
      rewrite (Hint _ _ H2 Hneg) in Hp2. done. }
    split_and!; try done. intros port Hport%elem_of_seqZ. lia.
  - destruct (int p1); simpl in Hparse; [|done].
    destruct (int p2); simpl in Hparse; [|done]. by destruct (int p3).
Qed.

Lemma digits_value_nonneg s acc n :
  0 ≤ acc → digits_value acc s = Some n → 0 ≤ n.
Proof.
  revert acc. induction s as [|c s IH]; intros acc Hacc; simpl.
  - by intros [= <-].
  - unfold digit_value.
    destruct ((48 <=? Z.of_N (N_of_ascii c)) && (Z.of_N (N_of_ascii c) <=? 57))
      eqn:Hd; [|done].
    apply andb_true_iff in Hd as [H1%Z.leb_le H2%Z.leb_le].
    apply IH. lia.
Qed.

Lemma decimal_nonneg s n : decimal s = Ok n → 0 ≤ n.
Proof.
  unfold decimal. destruct s as [|c s]; [done|].
  destruct (digits_value 0 (String c s)) as [m|] eqn:Hm; [|done].
  intros [= <-]. by eapply (digits_value_nonneg _ 0).
Qed.

Lemma parse_port_range_nonneg_witness :
  parse_port_range decimal "1-1024" = Ok (1, 1024) ∧ 0 ≤ 1 ∧ 0 ≤ 1024.
Proof.
  split; [reflexivity|].
  destruct (parse_port_range_nonneg decimal "1-1024" 1 1024) as (H1 & H2 & _);
    [|reflexivity|by split].
  intros s n Hs Hn. apply decimal_nonneg in Hs. lia.
Defined.

(** X8.  An argument without a hyphen, a single port such as [80], is
    never accepted: [int] is applied to the whole argument, and when it
    returns a number the unpacking fails with [ValueError] for want of a
    second value. *)
Theorem parse_port_range_single int arg :
  has_hyphen arg = false →
  parse_port_range int arg = (_ ← int arg; Raise ValueError).
Proof.
  intros Harg. unfold parse_port_range, unpack_two.
  rewrite (split_hyphen_none _ Harg). by destruct (int arg).
Qed.

Lemma parse_port_range_single_witness :
  parse_port_range decimal "80" = Raise ValueError.
Proof. exact (parse_port_range_single decimal "80" eq_refl). Defined.

(** ** The coordinator: effects and resources *)

Lemma bind_insert_empty {B} (g : Future → list B) (fs : list Future) i f f' :
  fs !! i = Some f → g f = [] →
  <[i := f']> fs ≫= g ≡ₚ (fs ≫= g) ++ g f'.
Proof.
  intros Hi Hf.
  rewrite insert_take_drop by (by eapply lookup_lt_Some).
  replace (fs ≫= g) with ((take i fs ++ f :: drop (S i) fs) ≫= g)
    by (by rewrite take_drop_middle).
  rewrite !bind_app, !bind_cons, Hf. simpl.
  rewrite <- !app_assoc. f_equiv. apply Permutation_app_comm.
Qed.

Lemma filter_insert_length {A} (P : A → Prop) `{∀ x, Decision (P x)}
    (l : list A) i x y :
  l !! i = Some x →
  (length (filter P (<[i := y]> l)) + (if decide (P x) then 1 else 0)
   = length (filter P l) + (if decide (P y) then 1 else 0))%nat.
Proof.
  intros Hi.
  rewrite insert_take_drop by (by eapply lookup_lt_Some).
  replace (filter P l) with (filter P (take i l ++ x :: drop (S i) l))
    by (by rewrite take_drop_middle).
  rewrite !filter_app, !filter_cons, !length_app.
  destruct (decide (P x)), (decide (P y)); simpl; lia.
Qed.

Lemma count_app p tr1 tr2 : count p (tr1 ++ tr2) = (count p tr1 + count p tr2)%nat.
Proof. unfold count. by rewrite filter_app, length_app. Qed.

Lemma count_perm p tr1 tr2 : tr1 ≡ₚ tr2 → count p tr1 = count p tr2.
Proof. unfold count. by intros ->. Qed.

Lemma count_bind_eq p q (g : Future → Trace) (fs : list Future) :
  (∀ f, f ∈ fs → count p (g f) = count q (g f)) →
  count p (fs ≫= g) = count q (fs ≫= g).
Proof.
  induction fs as [|f fs IH]; intros Hfs; [done|].
  rewrite bind_cons, !count_app, (Hfs f) by apply list_elem_of_here.
  rewrite IH; [done|]. intros f' Hin. apply Hfs. by apply list_elem_of_further.
Qed.

Lemma count_bind_one p (g : Future → Trace) (fs : list Future) :
  (∀ f, f ∈ fs → count p (g f) = 1%nat) →
  count p (fs ≫= g) = length fs.
Proof.
  induction fs as [|f fs IH]; intros Hfs; [done|].
  rewrite bind_cons, count_app, (Hfs f) by apply list_elem_of_here.
  rewrite IH; [done|]. intros f' Hin. apply Hfs. by apply list_elem_of_further.
Qed.

(** In the trace of a probe the sockets created, the sockets closed and
    the progress updates are as many. *)
Lemma scan_port_counts target port timeout os stop :
  count is_close (scan_port target port timeout os stop true).1
    = count is_socket (scan_port target port timeout os stop true).1 ∧
  count is_progress (scan_port target port timeout os stop true).1
    = count is_socket (scan_port target port timeout os stop true).1.
Proof.
  unfold scan_port, scan_port_finally, scan_port_except, scan_port_try.
  destruct stop; simpl; [done|].
  destruct (os_socket os) as [[]|e0]; simpl.
  - destruct (os_settimeout os) as [[]|e1]; simpl.
    + destruct (os_connect_ex os) as [errno|e2]; simpl.
      * by destruct (errno =? 0).
      * by destruct (is_gaierror e2), (is_socket_error e2).
    + by destruct (is_gaierror e1), (is_socket_error e1).
  - by destruct (is_gaierror e0), (is_socket_error e0).
Qed.

Lemma probe_socket_count a world port :
  os_socket (world port) = Ok () → count is_progress (probe a world port).1 = 1%nat.
Proof.
  intros Hs.
  unfold probe, scan_port, scan_port_finally, scan_port_except, scan_port_try.
  rewrite Hs. simpl.
  destruct (os_settimeout (world port)) as [[]|e1]; simpl.
  - destruct (os_connect_ex (world port)) as [errno|e2]; simpl.
    + by destruct (errno =? 0).
    + by destruct (is_gaierror e2), (is_socket_error e2).
  - by destruct (is_gaierror e1), (is_socket_error e1).
Qed.

Section Effects.
Variables (a : Args) (world : Z → ProbeEnv).

Lemma log_traces_step ev s s' :
  log s ≡ₚ done_traces (futures s) → step a world ev s = Some s' →
  log s' ≡ₚ done_traces (futures s').
Proof.
  intros Hlog. destruct ev as [|i|i|]; simpl.
  - destruct (pc s); try done; by intros [= <-].
  - destruct (futures s !! i) as [[port [| |r]]|] eqn:Hi; try done.
    destruct (_ <? _); [|done]. intros [= <-]. simpl.
    unfold done_traces. rewrite (bind_insert_empty _ _ _ _ _ Hi) by done.
    simpl. by rewrite Hlog.
  - destruct (futures s !! i) as [[port [| |r]]|] eqn:Hi; try done.
    intros [= <-]. simpl.
    unfold done_traces. rewrite (bind_insert_empty _ _ _ _ _ Hi) by done.
    simpl. by rewrite Hlog.
  - unfold main_step.
    destruct (pc s) as [| | |pending|pending|]; try done.
    + destruct (futures s !! it s); [destruct (stop_scan s)|];
        by intros [= <-].
    + destruct (futures s !! it s) as [[port [| |r]]|]; try done.
      by intros [= <-].
    + destruct (forallb _ _); [|done]. by intros [= <-].
    + destruct (print_results _); by intros [= <-].
    + destruct (stop_scan s); [|destruct pending]; by intros [= <-].
Qed.

(** The log is made of the traces of the calls that have returned. *)
Lemma log_traces sched s :
  main a world sched = Some s → log s ≡ₚ done_traces (futures s).
Proof.
  intros Hrun%main_run. revert Hrun.
  assert (Hinit : log (main_init a) ≡ₚ done_traces (futures (main_init a))).
  { unfold main_init, done_traces. simpl.
    destruct (threads a <=? 0); [done|].
    induction (ports a) as [|p l IH]; [done|]. by rewrite fmap_cons, bind_cons. }
  revert Hinit. generalize (main_init a).
  induction sched as [|ev sched IH]; intros s0 Hs0; simpl.
  - by intros [= <-].
  - destruct (step a world ev s0) as [s1|] eqn:Hstep; [|done]. simpl.
    apply IH. by eapply log_traces_step.
Qed.
End Effects.

(** X9.  At every moment of every scan, interrupted or not, the sockets
    created by the probes that have returned have all been closed: the
    log has as many closes as creations, and as many progress updates.
    No scan ends with a socket left open. *)
Theorem sockets_all_closed a world sched s :
  main a world sched = Some s →
  count is_close (log s) = count is_socket (log s) ∧
  count is_progress (log s) = count is_socket (log s).
Proof.
  intros Hrun. pose proof (inv_main _ _ _ _ Hrun) as Hinv.
  pose proof (log_traces _ _ _ _ Hrun) as Hlog.
  rewrite !(count_perm _ _ _ Hlog). unfold done_traces.
  assert (Hcall : ∀ f, f ∈ futures s →
    count is_close (match outcome f with Some r => r.1 | None => [] end)
      = count is_socket (match outcome f with Some r => r.1 | None => [] end) ∧
    count is_progress (match outcome f with Some r => r.1 | None => [] end)
      = count is_socket (match outcome f with Some r => r.1 | None => [] end)).
  { intros f [i Hi]%list_elem_of_lookup. unfold outcome.
    destruct (fut_state f) as [| |r] eqn:Hst; try done.
    destruct (inv_outcome _ _ _ Hinv i f r Hi Hst) as (b & -> & _).
    apply scan_port_counts. }
  split; apply count_bind_eq; intros f Hf; by apply Hcall.
Qed.

Lemma sockets_all_closed_witness :
  ∃ s, main (args_of "localhost" 20 22 3) world_22_80 last_first = Some s ∧
       count is_socket (log s) = 3%nat ∧
       count is_close (log s) = count is_socket (log s).
Proof.
  eexists. split; [vm_compute; reflexivity|]. split; [reflexivity|].
  eapply (sockets_all_closed (args_of "localhost" 20 22 3) world_22_80 last_first).
  vm_compute; reflexivity.
Defined.

(** X10.  In a scan that no SIGINT disturbs and in which every socket
    can be created, the progress bar has received exactly [total_ports]
    updates when [main] ends: it reaches its total. *)
Theorem progress_reaches_total a world sched s :
  0 < threads a → SSignal ∉ sched →
  (∀ port, port ∈ ports a → os_socket (world port) = Ok ()) →
  main a world sched = Some s → pc s = Exited →
  total_ports a = Ok (count is_progress (log s)).
Proof.
  intros Hth Hno Hsock Hrun Hpc. pose proof (inv_main _ _ _ _ Hrun) as Hinv.
  assert (Hstop : stop_scan s = false)
    by apply (run_no_signal _ _ _ _ _ Hno (main_run _ _ _ _ Hrun)).
  assert (Hjoin : after_join (pc s) = true) by by rewrite Hpc.
  pose proof (outcomes_uninterrupted _ _ _ Hinv Hstop Hjoin) as Hout.
  assert (Hports : fut_port <$> futures s = ports a).
  { rewrite (inv_ports _ _ _ Hinv). by destruct (Z.leb_spec (threads a) 0); [lia|]. }
  rewrite (main_total _ _ _ _ Hrun). f_equal. symmetry.
  rewrite (count_perm _ _ _ (log_traces _ _ _ _ Hrun)).
  unfold done_traces.
  rewrite <- Hports, length_fmap. apply count_bind_one.
  intros f Hf. rewrite Forall_forall in Hout. rewrite (Hout f Hf).
  apply probe_socket_count, Hsock. rewrite <- Hports.
  by apply list_elem_of_fmap_2.
Qed.

Lemma progress_reaches_total_witness :
  ∃ s, main (args_of "localhost" 1 100 10) world_22_80 (sequential 100) = Some s ∧
       total_ports (args_of "localhost" 1 100 10)
       = Ok (count is_progress (log s)).
Proof.
  eexists. split; [vm_compute; reflexivity|].
  apply (progress_reaches_total (args_of "localhost" 1 100 10) world_22_80
           (sequential 100)); [done | apply sequential_no_signal | |
                               vm_compute; reflexivity | reflexivity].
  intros port _. unfold world_22_80.
  by destruct (port =? 22), (port =? 80).
Defined.

(** ** The coordinator: exit status and report *)

Section Status.
Variables (a : Args) (world : Z → ProbeEnv).

Lemma run_signal sched s s' :
  SSignal ∈ sched → run a world sched s = Some s' → stop_scan s' = true.
Proof.
  revert s. induction sched as [|ev sched IH]; intros s Hin; simpl.
  - by apply elem_of_nil in Hin.
  - destruct (step a world ev s) as [s1|] eqn:Hstep; [|done]. simpl.
    intros Hrun. apply elem_of_cons in Hin as [<-|Hin]; [|by eapply IH].
    eapply run_stop_scan; [|done]. by rewrite (step_stop_scan _ _ _ _ _ Hstep).
Qed.

(** A probe that was cancelled on entry, or whose outcome is not an open
    tuple, adds no row; any other adds the row of the undisturbed
    probe. *)
Lemma opened_cases s i f :
  Inv a world s → futures s !! i = Some f →
  opened f = None ∨ opened f = open_tuple (probe a world (fut_port f)).
Proof.
  intros Hinv Hi. unfold opened, outcome.
  destruct (fut_state f) as [| |r] eqn:Hst; try by left.
  destruct (inv_outcome _ _ _ Hinv i f r Hi Hst) as ([] & -> & _);
    [by left|by right].
Qed.
End Status.

Lemma omap_opened_sublist (g : Z → option PortTuple) (fs : list Future) :
  Forall (λ f, opened f = None ∨ opened f = g (fut_port f)) fs →
  omap opened fs `sublist_of` omap g (fut_port <$> fs).
Proof.
  induction 1 as [|f fs Hf _ IH]; [constructor|].
  rewrite fmap_cons.
  change (omap opened (f :: fs))
    with (match opened f with
          | Some t => t :: omap opened fs
          | None => omap opened fs
          end).
  change (omap g (fut_port f :: (fut_port <$> fs)))
    with (match g (fut_port f) with
          | Some t => t :: omap g (fut_port <$> fs)
          | None => omap g (fut_port <$> fs)
          end).
  destruct Hf as [-> | ->].
  - destruct (g (fut_port f)); [by apply sublist_cons|done].
  - destruct (g (fut_port f)); [by apply sublist_skip|done].
Qed.

Lemma open_tuple_probe target port timeout os pb t :
  open_tuple (scan_port target port timeout os false pb) = Some t →
  os_socket os = Ok () ∧ os_settimeout os = Ok () ∧ os_connect_ex os = Ok 0 ∧
  t = (port, true,
       Some match os_getservbyport os with
            | Ok name => name
            | Raise _ => "unknown"%string
            end).
Proof.
  unfold open_tuple, scan_port, scan_port_finally, scan_port_except,
    scan_port_try. simpl.
  destruct (os_socket os) as [[]|e0]; simpl; [|done].
  destruct (os_settimeout os) as [[]|e1]; simpl.
  - destruct (os_connect_ex os) as [errno|e2]; simpl.
    + destruct (Z.eqb_spec errno 0) as [->|]; simpl; [|done].
      by intros [= <-].
    + by destruct (is_gaierror e2), (is_socket_error e2).
  - by destruct (is_gaierror e1), (is_socket_error e1).
Qed.

(** X11.  The exit status of a scan that reaches the end of [main] is
    decided by two things only.  It is 1 with the interruption message
    exactly when a SIGINT was delivered at some moment, however late;
    otherwise it is the traceback of the [ValueError] of the pool when
    [threads] is not positive, and the normal status in every other
    case.  In particular no error of a probe changes the exit status, and
    printing the report never fails. *)
Theorem exit_status_classes a world sched s :
  main a world sched = Some s → pc s = Exited →
  exit_status s
  = Some (if bool_decide (SSignal ∈ sched) then ExitInterrupted
          else if threads a <=? 0 then ExitTraceback ValueError
          else ExitOk).
Proof.
  intros Hrun Hpc. pose proof (inv_main _ _ _ _ Hrun) as Hinv.
  rewrite (inv_exit _ _ _ Hinv), Hpc. unfold final_status.
  case_bool_decide as Hsig.
  - by rewrite (run_signal a world sched (main_init a) s Hsig (main_run _ _ _ _ Hrun)).
  - by rewrite (run_no_signal a world sched (main_init a) s Hsig (main_run _ _ _ _ Hrun)).
Qed.

Lemma exit_status_classes_witness :
  ∃ s, main (args_of "localhost" 1 3 0) world_all_open [SMain; SMain] = Some s ∧
       exit_status s = Some (ExitTraceback ValueError).
Proof.
  eexists. split; [vm_compute; reflexivity|].
  rewrite (exit_status_classes (args_of "localhost" 1 3 0) world_all_open
             [SMain; SMain]); [|vm_compute; reflexivity|reflexivity].
  reflexivity.
Defined.

(** X12.  With a thread count that is not positive the pool cannot be
    created.  In every scan, no call is submitted and no probe has any
    effect; [main] still prints its results, which are empty, and ends
    with the traceback of [ValueError] (or with status 1 if a SIGINT came
    in between).  Such a run exists for every range whose length [len]
    accepts; for a longer range [main] has ended before, at
    [len(ports)], and there is no scan at all. *)
Theorem no_pool_no_scan a world :
  threads a ≤ 0 →
  (∀ sched s, main a world sched = Some s →
     futures s = [] ∧ log s = [] ∧ results s = [] ∧
     (pc s = Exited →
      report s = Some [] ∧
      exit_status s = Some (if stop_scan s then ExitInterrupted
                            else ExitTraceback ValueError))) ∧
  (∀ n, total_ports a = Ok n →
     ∃ s, main a world [SMain; SMain] = Some s ∧ pc s = Exited ∧
          report s = Some [] ∧
          exit_status s = Some (ExitTraceback ValueError)) ∧
  (sys_maxsize < end_port a + 1 - start_port a →
   main_start a = Raise (OtherException "OverflowError") ∧
   ∀ sched, main a world sched = None).
Proof.
  intros Hth.
  assert (Hleb : (threads a <=? 0) = true) by by apply Z.leb_le.
  split_and!.
  - intros sched s Hrun. pose proof (inv_main _ _ _ _ Hrun) as Hinv.
    destruct (idle_run a world sched (main_init a) s) as [Hfs Hlog];
      [unfold main_init; simpl; by rewrite Hleb | by apply main_run |].
    assert (Hres : results s = []).
    { by rewrite (inv_results _ _ _ Hinv), Hfs, take_nil. }
    split_and!; try done. intros Hpc. split.
    + by rewrite (inv_report _ _ _ Hinv), Hpc, Hres.
    + rewrite (inv_exit _ _ _ Hinv), Hpc. unfold final_status. by rewrite Hleb.
  - intros n Hn. rewrite (main_fits a world n _ Hn).
    unfold main_init. simpl. unfold main_step. simpl. rewrite Hleb. simpl.
    unfold main_step. simpl. eexists. split; [reflexivity|]. by split_and!.
  - intros Hlt.
    assert (Hraise : total_ports a = Raise (OtherException "OverflowError")).
    { unfold total_ports.
      by destruct (Z.ltb_spec sys_maxsize (end_port a + 1 - start_port a));
        [|lia]. }
    split; [|intros sched]; unfold main, main_start; by rewrite Hraise.
Qed.

Lemma no_pool_no_scan_witness :
  ∃ s, main (args_of "localhost" 1 3 0) world_all_open [SMain; SMain] = Some s ∧
       pc s = Exited ∧ report s = Some [] ∧
       exit_status s = Some (ExitTraceback ValueError).
Proof.
  destruct (no_pool_no_scan (args_of "localhost" 1 3 0) world_all_open
              ltac:(done)) as (_ & Hex & _).
  exact (Hex 3%nat eq_refl).
Defined.

(** X13.  The rows of every report, also of an interrupted scan, are
    rows of the report of the undisturbed scan, in the same order: a
    SIGINT can only remove rows.  So every row is a port of the range
    whose socket was set up and whose connect returned 0, with the
    service name of that port or ["unknown"]; a closed port is never
    reported open. *)
Theorem report_within_full a world sched s rows :
  main a world sched = Some s → report s = Some rows →
  rows `sublist_of` full_report a world ∧
  ∀ t, t ∈ rows →
    tuple_port t ∈ ports a ∧
    os_socket (world (tuple_port t)) = Ok () ∧
    os_settimeout (world (tuple_port t)) = Ok () ∧
    os_connect_ex (world (tuple_port t)) = Ok 0 ∧
    t = (tuple_port t, true,
         Some match os_getservbyport (world (tuple_port t)) with
              | Ok name => name
              | Raise _ => "unknown"%string
              end).
Proof.
  intros Hrun Hrows. pose proof (inv_main _ _ _ _ Hrun) as Hinv.
  assert (rows = results s) as ->.
  { rewrite (inv_report _ _ _ Hinv) in Hrows.
    destruct (reported (pc s)); [|done]. by injection Hrows as <-. }
  assert (Hsub : results s `sublist_of` full_report a world).
  { rewrite (inv_results _ _ _ Hinv). unfold full_report.
    transitivity (omap opened (futures s)).
    - rewrite <- (take_drop (it s) (futures s)) at 2. rewrite omap_app.
      apply sublist_inserts_r. done.
    - destruct (threads a <=? 0) eqn:Hth.
      + pose proof (inv_ports _ _ _ Hinv) as Hp. rewrite Hth in Hp.
        apply fmap_nil_inv in Hp. rewrite Hp. apply sublist_nil_l.
      + pose proof (inv_ports _ _ _ Hinv) as Hp. rewrite Hth in Hp.
        rewrite <- Hp.
        apply (omap_opened_sublist (λ port, open_tuple (probe a world port))).
        apply Forall_lookup. intros i f Hi. by apply (opened_cases a world s i). }
  split; [done|]. intros t Ht.
  pose proof (elem_of_sublist _ _ _ Ht Hsub) as Hfull.
  unfold full_report in Hfull.
  apply list_elem_of_omap in Hfull as (port & Hport & Hopen).
  destruct (open_tuple_probe _ _ _ _ _ _ Hopen) as (Hs & Hto & Hc & ->).
  unfold tuple_port. simpl. by split_and!.
Qed.

Lemma report_within_full_witness :
  let a := args_of "localhost" 1 3 3 in
  let sched :=
    [SStart 0; SStart 1; SStart 2; SFinish 0; SMain; SMain; SSignal;
     SFinish 1; SFinish 2] ++ wind_up in
  ∃ s, main a world_all_open sched = Some s ∧
       report s = Some [(1, true, Some "unknown"%string)] ∧
       [(1, true, Some "unknown"%string)] `sublist_of` full_report a world_all_open.
Proof.
  intros a sched. eexists. split; [vm_compute; reflexivity|].
  split; [reflexivity|].
  eapply (report_within_full a world_all_open sched);
    [vm_compute; reflexivity | reflexivity].
Defined.

(** X14.  A SIGINT that arrives after the loop has taken every future
    does not change the report, which is the full one, but the scan is
    still declared interrupted and ends with status 1. *)
Theorem late_signal_full_report a world sched1 sched2 s1 s2 :
  0 < threads a → SSignal ∉ sched1 →
  main a world sched1 = Some s1 →
  in_loop (pc s1) = false → pc s1 ≠ Exited →
  run a world (SSignal :: sched2) s1 = Some s2 → pc s2 = Exited →
  report s2 = Some (full_report a world) ∧
  exit_status s2 = Some ExitInterrupted.
Proof.
  intros Hth Hno Hrun1 Hloop Hpc1 Hrun2 Hpc2.
  pose proof (inv_main _ _ _ _ Hrun1) as Hinv1.
  pose proof (inv_run _ _ _ _ _ Hinv1 Hrun2) as Hinv2.
  assert (Hstop1 : stop_scan s1 = false)
    by apply (run_no_signal _ _ _ _ _ Hno (main_run _ _ _ _ Hrun1)).
  simpl in Hrun2.
  assert (Hsig : run a world sched2 (signal_handler s1) = Some s2).
  { destruct (pc s1); try done. }
  assert (Hstop2 : stop_scan s2 = true)
    by exact (run_stop_scan a world sched2 (signal_handler s1) s2 eq_refl Hsig).
  split.
  - rewrite (inv_report _ _ _ Hinv2), Hpc2. simpl. f_equal.
    destruct (frozen_run a world sched2 (signal_handler s1) s2) as [_ ->];
      [done| |done|].
    { simpl. intros Hawait. by rewrite Hawait in Hloop. }
    simpl.
    destruct (inv_left _ _ _ Hinv1 Hloop) as [?|Hit]; [congruence|].
    rewrite (inv_results _ _ _ Hinv1), Hit, firstn_all. unfold full_report.
    assert (Hp : fut_port <$> futures s1 = ports a).
    { rewrite (inv_ports _ _ _ Hinv1).
      by destruct (Z.leb_spec (threads a) 0); [lia|]. }
    rewrite <- Hp. unfold opened. apply omap_outcomes.
    apply Forall_lookup. intros i f Hi.
    destruct (inv_taken _ _ _ Hinv1 i) as (f' & Hf' & Hfin).
    { rewrite Hit. by eapply lookup_lt_Some. }
    rewrite Hi in Hf'. injection Hf' as <-.
    unfold is_finished in Hfin. unfold outcome.
    destruct (fut_state f) as [| |r] eqn:Hst; try done.
    destruct (inv_outcome _ _ _ Hinv1 i f r Hi Hst) as ([] & -> & Hb);
      [|done].
    rewrite Hb in Hstop1; done.
  - rewrite (inv_exit _ _ _ Hinv2), Hpc2. unfold final_status. by rewrite Hstop2.
Qed.

Lemma late_signal_full_report_witness :
  let a := args_of "localhost" 20 22 3 in
  let before := [SStart 0; SStart 1; SStart 2; SFinish 2; SFinish 1; SFinish 0]
                ++ collect_all 3 ++ [SMain; SMain; SMain] in
  ∃ s1 s2,
    main a world_22_80 before = Some s1 ∧
    run a world_22_80 [SSignal; SMain] s1 = Some s2 ∧
    report s2 = Some [(22, true, Some "ssh"%string)] ∧
    exit_status s2 = Some ExitInterrupted.
Proof.
  intros a before. eexists _, _.
  split; [vm_compute; reflexivity|]. split; [vm_compute; reflexivity|].
  edestruct (late_signal_full_report a world_22_80 before [SMain])
    as [Hrep Hexit];
    [done | apply (bool_decide_unpack _); vm_compute; exact I
    | vm_compute; reflexivity | reflexivity | discriminate
    | vm_compute; reflexivity | reflexivity |].
  split; [exact Hrep | exact Hexit].
Defined.

(** ** The coordinator: what a SIGINT still lets happen *)

Lemma filter_length_impl {A} (P Q : A → Prop) `{∀ x, Decision (P x)}
    `{∀ x, Decision (Q x)} (l : list A) :
  (∀ x, P x → Q x) → (length (filter P l) ≤ length (filter Q l))%nat.
Proof.
  intros HPQ. induction l as [|x l IH]; [done|].
  rewrite !filter_cons.
  destruct (decide (P x)) as [HP|], (decide (Q x)) as [|HQ]; simpl; try lia.
  by destruct HQ; apply HPQ.
Qed.

Section Bounds.
Variables (a : Args) (world : Z → ProbeEnv).

(** Never more calls running than [max_workers]. *)
Lemma running_bound_step ev s s' :
  Z.of_nat (running (futures s)) ≤ Z.max 0 (threads a) →
  step a world ev s = Some s' →
  Z.of_nat (running (futures s')) ≤ Z.max 0 (threads a).
Proof.
  intros Hb. destruct ev as [|i|i|]; simpl.
  - destruct (pc s); try done; by intros [= <-].
  - destruct (futures s !! i) as [[port [| |r]]|] eqn:Hi; try done.
    destruct (Z.ltb_spec (Z.of_nat (length (filter (λ f, is_running f = true)
                                              (futures s)))) (threads a))
      as [Hlt|]; [|done].
    intros [= <-]. simpl. unfold running in *.
    pose proof (filter_insert_length (λ f, is_running f = true) (futures s) i
                  _ {| fut_port := port; fut_state := Running (stop_scan s) |}
                  Hi) as Hlen.
    simpl in Hlen. lia.
  - destruct (futures s !! i) as [[port [|b|r]]|] eqn:Hi; try done.
    intros [= <-]. simpl. unfold running in *.
    pose proof (filter_insert_length (λ f, is_running f = true) (futures s) i
                  _ {| fut_port := port;
                       fut_state := Finished (scan_port (target a) port
                                      (timeout a) (world port) b true) |}
                  Hi) as Hlen.
    simpl in Hlen. lia.
  - unfold main_step.
    destruct (pc s) as [| | |pending|pending|]; try done.
    + destruct (futures s !! it s); [destruct (stop_scan s)|];
        by intros [= <-].
    + destruct (futures s !! it s) as [[port [| |r]]|]; try done.
      by intros [= <-].
    + destruct (forallb _ _); [|done]. by intros [= <-].
    + destruct (print_results _); by intros [= <-].
    + destruct (stop_scan s); [|destruct pending]; by intros [= <-].
Qed.

Lemma running_bound sched s :
  main a world sched = Some s →
  Z.of_nat (running (futures s)) ≤ Z.max 0 (threads a).
Proof.
  intros Hrun%main_run. revert Hrun.
  assert (Hinit : Z.of_nat (running (futures (main_init a)))
                  ≤ Z.max 0 (threads a)).
  { unfold main_init, running. simpl. destruct (threads a <=? 0); simpl; [lia|].
    induction (ports a) as [|p l IH]; simpl; [lia|].
    rewrite filter_cons_False by done. exact IH. }
  revert Hinit. generalize (main_init a).
  induction sched as [|ev sched IH]; intros s0 Hs0; simpl.
  - by intros [= <-].
  - destruct (step a world ev s0) as [s1|] eqn:Hstep; [|done]. simpl.
    apply IH. by eapply running_bound_step.
Qed.

(** Once the flag is set, the connects still to come are those of the
    calls that have already passed the test of the flag. *)
Lemma cancel_potential_step ev s s' :
  stop_scan s = true → step a world ev s = Some s' →
  (length (connects (log s')) + connecting (futures s')
   ≤ length (connects (log s)) + connecting (futures s))%nat.
Proof.
  intros Hstop. destruct ev as [|i|i|]; simpl.
  - destruct (pc s); try done; by intros [= <-].
  - destruct (futures s !! i) as [[port [| |r]]|] eqn:Hi; try done.
    destruct (_ <? _); [|done]. intros [= <-]. simpl.
    rewrite app_nil_r, Hstop. unfold connecting.
    pose proof (filter_insert_length (λ f, is_connecting f = true) (futures s)
                  i _ {| fut_port := port; fut_state := Running true |} Hi)
      as Hlen.
    simpl in Hlen. lia.
  - destruct (futures s !! i) as [[port [|b|r]]|] eqn:Hi; try done.
    intros [= <-]. simpl. unfold connecting.
    pose proof (filter_insert_length (λ f, is_connecting f = true) (futures s)
                  i _ {| fut_port := port;
                         fut_state := Finished (scan_port (target a) port
                                        (timeout a) (world port) b true) |}
                  Hi) as Hlen.
    unfold connects at 1. rewrite omap_app, length_app.
    fold (connects (log s)).
    fold (connects (scan_port (target a) port (timeout a) (world port) b true).1).
    assert (Hc : (length (connects (scan_port (target a) port (timeout a)
                                      (world port) b true).1)
                  ≤ if b then 0 else 1)%nat).
    { destruct b; [done|].
      by destruct (scan_port_connects (target a) port (timeout a) (world port)
                     false true) as [-> | ->]; simpl; lia. }
    set (r := scan_port (target a) port (timeout a) (world port) b true) in *.
    clearbody r. destruct b; simpl in Hlen, Hc; lia.
  - unfold main_step.
    destruct (pc s) as [| | |pending|pending|]; try done.
    + destruct (futures s !! it s); [destruct (stop_scan s)|];
        by intros [= <-].
    + destruct (futures s !! it s) as [[port [| |r]]|]; try done.
      by intros [= <-].
    + destruct (forallb _ _); [|done]. by intros [= <-].
    + destruct (print_results _); by intros [= <-].
    + destruct (stop_scan s); [|destruct pending]; by intros [= <-].
Qed.

Lemma cancel_potential_run sched s s' :
  stop_scan s = true → run a world sched s = Some s' →
  (length (connects (log s')) + connecting (futures s')
   ≤ length (connects (log s)) + connecting (futures s))%nat.
Proof.
  revert s. induction sched as [|ev sched IH]; intros s Hstop; simpl.
  - by intros [= <-].
  - destruct (step a world ev s) as [s1|] eqn:Hstep; [|done]. simpl.
    intros Hrun.
    assert (Hstop1 : stop_scan s1 = true).
    { rewrite (step_stop_scan _ _ _ _ _ Hstep). by destruct ev. }
    pose proof (cancel_potential_step _ _ _ Hstop Hstep).
    pose proof (IH s1 Hstop1 Hrun). lia.
Qed.
End Bounds.

(** X15.  After a SIGINT no call that a worker had not yet taken touches
    the network: the connects attempted from then on are at most as many
    as the calls that had passed the test of [stop_scan] and not yet
    returned, and these are never more than [args.threads]. *)
Theorem cancel_bounds_connects a world sched1 sched2 s1 s2 :
  main a world sched1 = Some s1 → stop_scan s1 = true →
  run a world sched2 s1 = Some s2 →
  (length (connects (log s2))
   ≤ length (connects (log s1)) + connecting (futures s1))%nat ∧
  (connecting (futures s1) ≤ running (futures s1))%nat ∧
  Z.of_nat (running (futures s1)) ≤ Z.max 0 (threads a).
Proof.
  intros Hrun1 Hstop Hrun2. split_and!.
  - pose proof (cancel_potential_run a world sched2 s1 s2 Hstop Hrun2). lia.
  - apply filter_length_impl. intros f. unfold is_connecting, is_running.
    by destruct (fut_state f) as [|[]|].
  - by eapply running_bound.
Qed.

Lemma cancel_bounds_connects_witness :
  let a := args_of "localhost" 1 5 2 in
  let before := [SStart 0; SFinish 0; SStart 1; SStart 2; SSignal] in
  let after := [SFinish 1; SStart 3; SFinish 2; SStart 4; SFinish 3;
                SFinish 4] in
  ∃ s1 s2,
    main a world_all_open before = Some s1 ∧
    run a world_all_open after s1 = Some s2 ∧
    connects (log s1) = [1] ∧ connecting (futures s1) = 2%nat ∧
    (length (connects (log s2)) ≤ 1 + 2)%nat.
Proof.
  intros a before after. eexists _, _.
  split; [vm_compute; reflexivity|]. split; [vm_compute; reflexivity|].
  split; [reflexivity|]. split; [reflexivity|].
  edestruct (cancel_bounds_connects a world_all_open before after) as [H _];
    [vm_compute; reflexivity | reflexivity | vm_compute; reflexivity |].
  exact H.
Defined.



(** ** No scan gets stuck *)

Lemma filter_pick {A} (P : A → Prop) `{∀ x, Decision (P x)} (l : list A) :
  (0 < length (filter P l))%nat → ∃ i x, l !! i = Some x ∧ P x.
Proof.
  destruct (filter P l) as [|x k] eqn:Hf; simpl; [lia|]. intros _.
  assert (Hx : x ∈ filter P l) by (rewrite Hf; apply list_elem_of_here).
  apply list_elem_of_filter in Hx as [HP [i Hi]%list_elem_of_lookup].
  by exists i, x.
Qed.

Section Exit.
Variables (a : Args) (world : Z → ProbeEnv).

Lemma run_cons ev sched s s1 :
  step a world ev s = Some s1 →
  run a world (ev :: sched) s = run a world sched s1.
Proof. intros Hstep. simpl. by rewrite Hstep. Qed.

Lemma all_finished (fs : list Future) :
  unfinished fs = 0%nat → forallb is_finished fs = true.
Proof.
  unfold unfinished. induction fs as [|f fs IH]; [done|].
  rewrite filter_cons. simpl.
  destruct (decide (is_finished f = false)) as [|Hf]; simpl; [lia|].
  intros H0. rewrite (IH H0). by destruct (is_finished f).
Qed.

(** The workers can always bring every call to its end: a running call
    returns, and when none is running a pending call can be taken. *)
Lemma drain n s :
  Inv a world s →
  Z.of_nat (running (futures s)) ≤ Z.max 0 (threads a) →
  unfinished (futures s) = n →
  ∃ sched s', (SSignal ∉ sched) ∧ (SMain ∉ sched) ∧
              run a world sched s = Some s' ∧
              unfinished (futures s') = 0%nat.
Proof.
  revert s. induction n as [|n IH]; intros s Hinv Hbound Hn.
  { exists [], s. split_and!; try done; apply not_elem_of_nil. }
  destruct (decide (0 < running (futures s))%nat) as [Hrun|Hnone].
  - (* a running call returns *)
    destruct (filter_pick _ _ Hrun) as (i & [port st] & Hi & Hst).
    unfold is_running in Hst. simpl in Hst.
    destruct st as [|b|r]; try done.
    set (f' := {| fut_port := port;
                  fut_state := Finished (scan_port (target a) port (timeout a)
                                           (world port) b true) |}).
    assert (Hstep : step a world (SFinish i) s
                    = Some (set_future i f'
                              (scan_port (target a) port (timeout a)
                                 (world port) b true).1 s)).
    { simpl. by rewrite Hi. }
    pose proof (filter_insert_length (λ f, is_finished f = false) (futures s)
                  i _ f' Hi) as Hlen.
    simpl in Hlen.
    destruct (IH _ (inv_step _ _ _ _ _ Hinv Hstep)
                (running_bound_step _ _ _ _ _ Hbound Hstep))
      as (sched & s' & Hns & Hnm & Hrun' & Hdone).
    { simpl. unfold unfinished in *. lia. }
    exists (SFinish i :: sched), s'. split_and!; try done.
    + apply not_elem_of_cons. by split.
    + apply not_elem_of_cons. by split.
    + by rewrite (run_cons _ _ _ _ Hstep).
  - (* no call is running: a pending call is taken *)
    assert (Hpick : (0 < length (filter (λ f, is_finished f = false)
                                   (futures s)))%nat)
      by (unfold unfinished in Hn; lia).
    destruct (filter_pick _ _ Hpick) as (i & [port st] & Hi & Hst).
    unfold is_finished in Hst. simpl in Hst.
    destruct st as [|b|r]; try done.
    2:{ exfalso. apply Hnone. unfold running.
        pose proof (length_filter_lt (λ f, ¬ is_running f = true) (futures s)
                      {| fut_port := port; fut_state := Running b |}) as Hlt.
        destruct (filter (λ f, is_running f = true) (futures s)) as [|x k] eqn:Hf;
          simpl; [|lia].
        exfalso. eapply (filter_nil_not_elem_of _ _ _ Hf);
          [|by eapply list_elem_of_lookup_2]. done. }
    assert (Hth : 0 < threads a).
    { pose proof (inv_ports _ _ _ Hinv) as Hp.
      destruct (Z.leb_spec (threads a) 0); [|done].
      apply fmap_nil_inv in Hp. by rewrite Hp in Hi. }
    set (f' := {| fut_port := port; fut_state := Running (stop_scan s) |}).
    assert (Hstep : step a world (SStart i) s = Some (set_future i f' [] s)).
    { simpl. rewrite Hi.
      assert (length (filter (λ f, is_running f = true) (futures s)) = 0%nat)
        as -> by (unfold running in Hnone; lia).
      by destruct (Z.ltb_spec (Z.of_nat 0) (threads a)); [|lia]. }
    (* the call is now running: the first case applies after one step *)
    pose proof (inv_step _ _ _ _ _ Hinv Hstep) as Hinv1.
    pose proof (running_bound_step _ _ _ _ _ Hbound Hstep) as Hbound1.
    set (s1 := set_future i f' [] s) in *.
    assert (Hi1 : futures s1 !! i = Some f').
    { simpl. apply list_lookup_insert_eq. by eapply lookup_lt_Some. }
    set (f'' := {| fut_port := port;
                   fut_state := Finished (scan_port (target a) port (timeout a)
                                            (world port) (stop_scan s) true) |}).
    assert (Hstep1 : step a world (SFinish i) s1
                     = Some (set_future i f''
                               (scan_port (target a) port (timeout a)
                                  (world port) (stop_scan s) true).1 s1)).
    { cbn [step]. by rewrite Hi1. }
    pose proof (filter_insert_length (λ f, is_finished f = false) (futures s)
                  i _ f' Hi) as Hlen.
    pose proof (filter_insert_length (λ f, is_finished f = false) (futures s1)
                  i _ f'' Hi1) as Hlen1.
    simpl in Hlen, Hlen1.
    destruct (IH _ (inv_step _ _ _ _ _ Hinv1 Hstep1)
                (running_bound_step _ _ _ _ _ Hbound1 Hstep1))
      as (sched & s' & Hns & Hnm & Hrun' & Hdone).
    { simpl. unfold unfinished in *. simpl in *. lia. }
    exists (SStart i :: SFinish i :: sched), s'. split_and!; try done.
    + rewrite !not_elem_of_cons. by split_and!.
    + rewrite !not_elem_of_cons. by split_and!.
    + by rewrite (run_cons _ _ _ _ Hstep), (run_cons _ _ _ _ Hstep1).
Qed.

(** With every call returned, the main thread goes on to the end. *)
Lemma exit_from_check s p :
  pc s = ExitCheck p →
  ∃ sched s', (SSignal ∉ sched) ∧ run a world sched s = Some s' ∧ pc s' = Exited.
Proof.
  intros Hpc.
  assert (∃ s', main_step s = Some s' ∧ pc s' = Exited) as (s' & Hstep & Hpc').
  { unfold main_step. rewrite Hpc.
    destruct (stop_scan s); [|destruct p]; by eexists. }
  exists [SMain], s'. split_and!; [|by rewrite (run_cons SMain _ _ _ Hstep)|done].
  intros H. not_in_list H.
Qed.

Lemma exit_from_finally s p :
  Inv a world s → pc s = Finally p →
  ∃ sched s', (SSignal ∉ sched) ∧ run a world sched s = Some s' ∧ pc s' = Exited.
Proof.
  intros Hinv Hpc.
  assert (Hstep : main_step s = Some (set_report (results s) p s)).
  { unfold main_step.
    by rewrite Hpc, (print_results_ascending _ (results_ascending _ _ _ Hinv)). }
  destruct (exit_from_check (set_report (results s) p s) p eq_refl)
    as (sched & s' & Hns & Hrun & Hpc').
  exists (SMain :: sched), s'. split_and!; [|by rewrite (run_cons SMain _ _ _ Hstep)|done].
  apply not_elem_of_cons. by split.
Qed.

Lemma exit_from_join s :
  Inv a world s → pc s = Join → unfinished (futures s) = 0%nat →
  ∃ sched s', (SSignal ∉ sched) ∧ run a world sched s = Some s' ∧ pc s' = Exited.
Proof.
  intros Hinv Hpc Hfin.
  assert (Hstep : main_step s = Some (set_pc (Finally None) s)).
  { unfold main_step. by rewrite Hpc, (all_finished _ Hfin). }
  destruct (exit_from_finally (set_pc (Finally None) s) None)
    as (sched & s' & Hns & Hrun & Hpc'); [|done|].
  { by apply (inv_main_step a world s). }
  exists (SMain :: sched), s'. split_and!; [|by rewrite (run_cons SMain _ _ _ Hstep)|done].
  apply not_elem_of_cons. by split.
Qed.

Lemma exit_from_loop k s :
  Inv a world s → pc s = LoopHead → unfinished (futures s) = 0%nat →
  (length (futures s) - it s)%nat = k →
  ∃ sched s', (SSignal ∉ sched) ∧ run a world sched s = Some s' ∧ pc s' = Exited.
Proof.
  revert s. induction k as [|k IH]; intros s Hinv Hpc Hfin Hk.
  - assert (Hstep : main_step s = Some (set_pc Join s)).
    { unfold main_step. rewrite Hpc.
      assert (futures s !! it s = None) as ->; [|done].
      apply lookup_ge_None. lia. }
    destruct (exit_from_join (set_pc Join s))
      as (sched & s' & Hns & Hrun & Hpc'); [|done|done|].
    { by apply (inv_main_step a world s). }
    exists (SMain :: sched), s'. split_and!; [|by rewrite (run_cons SMain _ _ _ Hstep)|done].
    apply not_elem_of_cons. by split.
  - destruct (lookup_lt_is_Some_2 (futures s) (it s)) as [f Hf]; [lia|].
    destruct (stop_scan s) eqn:Hstop.
    + assert (Hstep : main_step s = Some (set_pc Join s)).
      { unfold main_step. by rewrite Hpc, Hf, Hstop. }
      destruct (exit_from_join (set_pc Join s))
        as (sched & s' & Hns & Hrun & Hpc'); [|done|done|].
      { by apply (inv_main_step a world s). }
      exists (SMain :: sched), s'. split_and!; [|by rewrite (run_cons SMain _ _ _ Hstep)|done].
      apply not_elem_of_cons. by split.
    + assert (Hstep : main_step s = Some (set_pc Await s)).
      { unfold main_step. by rewrite Hpc, Hf, Hstop. }
      assert (Hall : forallb is_finished (futures s) = true)
        by by apply all_finished.
      apply Is_true_true_2, forallb_True in Hall.
      rewrite Forall_lookup in Hall. specialize (Hall _ _ Hf).
      destruct f as [port st]. unfold is_finished in Hall. simpl in Hall.
      destruct st as [| |r]; try done.
      assert (Hstep1 : main_step (set_pc Await s)
                       = Some (handle_result r.2 (set_pc Await s))).
      { unfold main_step. simpl. by rewrite Hf. }
      pose proof (inv_main_step a world _ _ Hinv Hstep) as Hinv1.
      pose proof (inv_main_step a world _ _ Hinv1 Hstep1) as Hinv2.
      destruct (IH (handle_result r.2 (set_pc Await s)))
        as (sched & s' & Hns & Hrun & Hpc'); [done|done|done|simpl; lia|].
      exists (SMain :: SMain :: sched), s'. split_and!; [| |done].
      * rewrite !not_elem_of_cons. by split_and!.
      * by rewrite (run_cons SMain _ _ _ Hstep), (run_cons SMain _ _ _ Hstep1).
Qed.
End Exit.

(** From every state of a scan there is a way on, without a further
    SIGINT, that takes [main] to its end. *)
Lemma exit_reachable a world sched s :
  main a world sched = Some s →
  ∃ sched' s', (SSignal ∉ sched') ∧
               main a world (sched ++ sched') = Some s' ∧ pc s' = Exited.
Proof.
  intros Hrun. pose proof (inv_main _ _ _ _ Hrun) as Hinv.
  destruct (drain a world _ s Hinv (running_bound _ _ _ _ Hrun) eq_refl)
    as (sched1 & s1 & Hns1 & _ & Hrun1 & Hfin1).
  pose proof (inv_run _ _ _ _ _ Hinv Hrun1) as Hinv1.
  assert (∃ sched2 s2, (SSignal ∉ sched2) ∧
                       run a world sched2 s1 = Some s2 ∧ pc s2 = Exited)
    as (sched2 & s2 & Hns2 & Hrun2 & Hpc2).
  { destruct (pc s1) as [| | |p|p|] eqn:Hpc1.
    - by eapply exit_from_loop.
    - pose proof (inv_await _ _ _ Hinv1 Hpc1) as Hlt.
      destruct (lookup_lt_is_Some_2 (futures s1) (it s1) Hlt) as [f Hf].
      pose proof (all_finished _ Hfin1) as Hall.
      apply Is_true_true_2, forallb_True in Hall.
      rewrite Forall_lookup in Hall. specialize (Hall _ _ Hf).
      destruct f as [port st]. unfold is_finished in Hall. simpl in Hall.
      destruct st as [| |r]; try done.
      assert (Hstep : main_step s1 = Some (handle_result r.2 s1)).
      { unfold main_step. by rewrite Hpc1, Hf. }
      destruct (exit_from_loop a world
                  (length (futures s1) - S (it s1)) (handle_result r.2 s1))
        as (sched2 & s2 & Hns2 & Hrun2 & Hpc2);
        [by apply (inv_main_step a world s1)|done|done|done|].
      exists (SMain :: sched2), s2.
      split_and!; [|by rewrite (run_cons a world SMain _ _ _ Hstep)|done].
      apply not_elem_of_cons. by split.
    - by eapply exit_from_join.
    - by eapply exit_from_finally.
    - by eapply exit_from_check.
    - exists [], s1. split_and!; [apply not_elem_of_nil|done|done]. }
  exists (sched1 ++ sched2), s2. split_and!; [|  |done].
  - apply not_elem_of_app. by split.
  - rewrite (main_fits a world _ _ (main_total _ _ _ _ Hrun)).
    apply main_run in Hrun. rewrite run_app, Hrun. cbn [mbind option_bind].
    by rewrite run_app, Hrun1.
Qed.

Section Fuel.
Variables (a : Args) (world : Z → ProbeEnv).

(** Every step of a worker or of the main thread uses up fuel; a SIGINT
    uses none. *)
Lemma fuel_step ev s s' :
  step a world ev s = Some s' →
  (fuel s' + work [ev] ≤ fuel s)%nat.
Proof.
  unfold fuel, main_fuel, unfinished, pending.
  destruct ev as [|i|i|]; simpl.
  - destruct (pc s) eqn:Hpc; try done; intros [= <-]; simpl;
      rewrite Hpc; vm_compute work; lia.
  - destruct (futures s !! i) as [[port [| |r]]|] eqn:Hi; try done.
    destruct (_ <? _); [|done]. intros [= <-]. simpl.
    pose proof (filter_insert_length (λ f, is_finished f = false) (futures s)
                  i _ {| fut_port := port; fut_state := Running (stop_scan s) |}
                  Hi) as H1.
    pose proof (filter_insert_length (λ f, is_pending f = true) (futures s)
                  i _ {| fut_port := port; fut_state := Running (stop_scan s) |}
                  Hi) as H2.
    simpl in H1, H2. rewrite length_insert.
    change (work [SStart i]) with 1%nat. lia.
  - destruct (futures s !! i) as [[port [|b|r]]|] eqn:Hi; try done.
    intros [= <-]. simpl.
    pose proof (filter_insert_length (λ f, is_finished f = false) (futures s)
                  i _ {| fut_port := port;
                         fut_state := Finished (scan_port (target a) port
                                        (timeout a) (world port) b true) |}
                  Hi) as H1.
    pose proof (filter_insert_length (λ f, is_pending f = true) (futures s)
                  i _ {| fut_port := port;
                         fut_state := Finished (scan_port (target a) port
                                        (timeout a) (world port) b true) |}
                  Hi) as H2.
    simpl in H1, H2. rewrite length_insert.
    change (work [SFinish i]) with 1%nat. lia.
  - change (work [SMain]) with 1%nat. unfold main_step.
    destruct (pc s) as [| | |p|p|] eqn:Hpc; try done.
    + destruct (futures s !! it s); [destruct (stop_scan s)|];
        intros [= <-]; simpl; lia.
    + destruct (futures s !! it s) as [[port [| |r]]|] eqn:Hf; try done.
      intros [= <-]. simpl. apply lookup_lt_Some in Hf. lia.
    + destruct (forallb _ _); [|done]. intros [= <-]. simpl. lia.
    + destruct (print_results _); intros [= <-]; simpl; lia.
    + destruct (stop_scan s); [|destruct p]; intros [= <-]; simpl; lia.
Qed.

Lemma work_cons ev sched : work (ev :: sched) = (work [ev] + work sched)%nat.
Proof.
  unfold work. rewrite !filter_cons.
  destruct (decide (ev ≠ SSignal)); simpl; lia.
Qed.

Lemma fuel_run sched s s' :
  run a world sched s = Some s' → (fuel s' + work sched ≤ fuel s)%nat.
Proof.
  revert s. induction sched as [|ev sched IH]; intros s; simpl.
  - intros [= <-]. unfold work. simpl. lia.
  - destruct (step a world ev s) as [s1|] eqn:Hstep; [|done]. simpl.
    intros Hrun. pose proof (fuel_step _ _ _ Hstep). pose proof (IH _ Hrun).
    rewrite work_cons. lia.
Qed.

Lemma fuel_init : (fuel (main_init a) ≤ 4 * length (ports a) + 4)%nat.
Proof.
  unfold fuel, main_fuel, unfinished, pending, main_init. simpl.
  destruct (threads a <=? 0); simpl; [lia|].
  pose proof (length_filter (λ f, is_finished f = false) (submit <$> ports a)).
  pose proof (length_filter (λ f, is_pending f = true) (submit <$> ports a)).
  rewrite length_fmap in *. lia.
Qed.

(** As long as [main] has not ended, a worker or the main thread has a
    step to take. *)
Lemma progress s :
  Inv a world s → Z.of_nat (running (futures s)) ≤ Z.max 0 (threads a) →
  pc s ≠ Exited →
  ∃ ev s', ev ≠ SSignal ∧ step a world ev s = Some s'.
Proof.
  intros Hinv Hbound Hpc.
  destruct (decide (0 < running (futures s))%nat) as [Hrun|Hnone].
  { destruct (filter_pick _ _ Hrun) as (i & [port st] & Hi & Hst).
    unfold is_running in Hst. simpl in Hst. destruct st as [|b|r]; try done.
    eexists (SFinish i), _. split; [done|]. simpl. by rewrite Hi. }
  destruct (decide (0 < unfinished (futures s))%nat) as [Hunf|Hall].
  { destruct (filter_pick _ _ Hunf) as (i & [port st] & Hi & Hst).
    unfold is_finished in Hst. simpl in Hst. destruct st as [|b|r]; try done.
    - assert (Hth : 0 < threads a).
      { pose proof (inv_ports _ _ _ Hinv) as Hp.
        destruct (Z.leb_spec (threads a) 0); [|done].
        apply fmap_nil_inv in Hp. by rewrite Hp in Hi. }
      eexists (SStart i), _. split; [done|]. simpl. rewrite Hi.
      assert (length (filter (λ f, is_running f = true) (futures s)) = 0%nat)
        as -> by (unfold running in Hnone; lia).
      by destruct (Z.ltb_spec (Z.of_nat 0) (threads a)); [|lia].
    - exfalso. apply Hnone. unfold running.
      destruct (filter (λ f, is_running f = true) (futures s)) as [|x k] eqn:Hf;
        simpl; [|lia].
      exfalso. eapply (filter_nil_not_elem_of _ _ _ Hf);
        [|by eapply list_elem_of_lookup_2]. done. }
  assert (Hfin : forallb is_finished (futures s) = true)
    by (apply all_finished; lia).
  exists SMain. simpl. unfold main_step.
  destruct (pc s) as [| | |p|p|] eqn:Hpc1; try done.
  - destruct (futures s !! it s); [destruct (stop_scan s)|]; by eexists.
  - pose proof (inv_await _ _ _ Hinv Hpc1) as Hlt.
    destruct (lookup_lt_is_Some_2 (futures s) (it s) Hlt) as [f Hf].
    rewrite Hf.
    apply Is_true_true_2, forallb_True in Hfin.
    rewrite Forall_lookup in Hfin. specialize (Hfin _ _ Hf).
    destruct f as [port st]. unfold is_finished in Hfin. simpl in Hfin.
    destruct st as [| |r]; try done. by eexists.
  - rewrite Hfin. by eexists.
  - destruct (print_results _); by eexists.
  - destruct (stop_scan s); [|destruct p]; by eexists.
Qed.
End Fuel.

(** X17.  No scan gets stuck and no scan goes on for ever.  In every
    state that a scan can reach, whatever SIGINT, workers and main thread
    did before: as long as [main] has not ended, a worker or the main
    thread has a step to take; the workers and the main thread take at
    most [4 * len(ports) + 4] steps in all, however many SIGINT are
    delivered; and there is a way on without a further SIGINT that takes
    [main] to its end.  (A step of a worker is a call of [scan_port]
    being taken, or returning.) *)
Theorem scan_always_ends a world sched s :
  main a world sched = Some s →
  (pc s ≠ Exited → ∃ ev s', ev ≠ SSignal ∧ step a world ev s = Some s') ∧
  (work sched + fuel s ≤ 4 * length (ports a) + 4)%nat ∧
  ∃ sched' s', (SSignal ∉ sched') ∧
               main a world (sched ++ sched') = Some s' ∧ pc s' = Exited.
Proof.
  intros Hrun. split_and!.
  - apply progress; [by eapply inv_main|by eapply running_bound].
  - pose proof (fuel_run a world _ _ _ (main_run _ _ _ _ Hrun)).
    pose proof (fuel_init a). lia.
  - exact (exit_reachable a world sched s Hrun).
Qed.

Lemma scan_always_ends_witness :
  let a := args_of "localhost" 1 3 2 in
  let sched := [SStart 0; SStart 1; SMain; SSignal] in
  (work sched + 13 ≤ 4 * 3 + 4)%nat ∧
  ∃ sched' s', (SSignal ∉ sched') ∧
               main a world_all_open (sched ++ sched') = Some s' ∧
               pc s' = Exited.
Proof.
  intros a sched.
  destruct (scan_always_ends a world_all_open sched
              (default (main_init a) (main a world_all_open sched)))
    as (_ & Hfuel & Hexit); [vm_compute; reflexivity|].
  split; [exact Hfuel | exact Hexit].
Defined.

(** ** The errors the loop reports *)

(** X18.  In every scan, each "Error processing result" line stands for
    a probe of the range that raised, and the exception is never a
    socket error: a refused or timed-out connect and a host name that
    does not resolve end in a closed tuple, not in an error line. *)
Theorem errors_not_socket_errors a world sched s e :
  main a world sched = Some s → e ∈ errors s →
  is_socket_error e = false ∧
  ∃ i f, (i < it s)%nat ∧ futures s !! i = Some f ∧
         fut_port f ∈ ports a ∧ raised f = Some e.
Proof.
  intros Hrun He. pose proof (inv_main _ _ _ _ Hrun) as Hinv.
  rewrite (inv_errors _ _ _ Hinv) in He.
  apply list_elem_of_omap in He as (f & [i Hi]%list_elem_of_lookup & Hraised).
  apply lookup_take_Some in Hi as [Hi Hlt].
  assert (Hport : fut_port f ∈ ports a).
  { pose proof (inv_ports _ _ _ Hinv) as Hp.
    assert (Hin : fut_port f ∈ fut_port <$> futures s).
    { apply list_elem_of_fmap_2. by eapply list_elem_of_lookup_2. }
    rewrite Hp in Hin. destruct (threads a <=? 0); [|done].
    by apply elem_of_nil in Hin. }
  split; [|by exists i, f].
  unfold raised, outcome, raised_exn in Hraised.
  destruct (fut_state f) as [| |r] eqn:Hst; try done.
  destruct (inv_outcome _ _ _ Hinv i f r Hi Hst) as (b & -> & _).
  simpl in Hraised. revert Hraised.
  unfold scan_port, scan_port_finally, scan_port_except, scan_port_try.
  destruct b; simpl; [done|].
  destruct (os_socket (world (fut_port f))) as [[]|e0]; simpl;
    [|by intros [= <-]].
  destruct (os_settimeout (world (fut_port f))) as [[]|e1]; simpl.
  - destruct (os_connect_ex (world (fut_port f))) as [errno|e2]; simpl.
    + by destruct (errno =? 0).
    + destruct (is_gaierror e2) eqn:Hg, (is_socket_error e2) eqn:Hs; simpl;
        try done; by intros [= <-].
  - destruct (is_gaierror e1) eqn:Hg, (is_socket_error e1) eqn:Hs; simpl;
      try done; by intros [= <-].
Qed.

Lemma errors_not_socket_errors_witness :
  ∃ s, main (args_of "münchen..de" 80 80 1) (λ _, os_bad_name)
         (sequential 1) = Some s ∧
       errors s = [TypeError] ∧ is_socket_error TypeError = false.
Proof.
  eexists. split; [vm_compute; reflexivity|]. split; [reflexivity|].
  eapply (errors_not_socket_errors (args_of "münchen..de" 80 80 1)
            (λ _, os_bad_name) (sequential 1));
    [vm_compute; reflexivity | apply list_elem_of_here].
Defined.
